(** * arg_split: a quote-aware line splitter

    A shallow embedding of [arg_split.py] and the properties of [split]:
    the three-state scanner (SPACE, WORD, QUOTES), the backslash decoding
    done by [_make_word], the exceptions both can raise, and the behaviour
    of the whole on white space, quotes and escapes. *)

From Stdlib Require Import Ascii String.
From Stdlib Require Import Arith Bool NArith Lia List.
Import ListNotations.

(** ** Characters and strings

    A Python [str] is a sequence of Unicode code points; a character is its
    code point. *)

Abbreviation char := N (only parsing).
Abbreviation str := (list N) (only parsing).

Definition quote : char := 34%N.
Definition backslash : char := 92%N.
Definition blank : char := 32%N.

(** [str.isspace] on a one-character string: the code points Python
    classifies as white space. *)
Definition isspace (c : char) : bool :=
  ((9 <=? c) && (c <=? 13) || (28 <=? c) && (c <=? 32)
   || (c =? 133) || (c =? 160) || (c =? 5760)
   || (8192 <=? c) && (c <=? 8202)
   || (c =? 8232) || (c =? 8233) || (c =? 8239) || (c =? 8287)
   || (c =? 12288))%N.

(** String literals of the development, as code points. *)
Definition lit (s : String.string) : str :=
  map N_of_ascii (list_ascii_of_string s).

(** ** Exceptions

    The three subclasses of [SplitStringError], each carrying its message;
    a message is kept as its template with the interpolated values.
    [IndexError] is what [string[i]] raises out of range. *)

Inductive message : Type :=
| ExpectedWordChar (found : char) (index : nat)
    (* Expected a valid word character, found "{string[i]}" at index {i}. *)
| ExpectedSpaceChar (found : char) (index : nat)
    (* Expected a valid space character, found "{string[i]}" at index {i}. *)
| SpaceMustFollowQuotes
    (* A space must follow quotes before beginning the next word. *)
| QuoteNotClosed
    (* Quote was not closed. *)
| CannotEscape (next_char : char) (index : nat)
    (* Cannot escape {next_char} character index {begin + next_idx} *)
| InvalidBackslash (index : nat).
    (* Invalid character "\" at index {begin + backslash_loc} *)

Inductive exn : Type :=
| InvalidAcceptError (msg : message)
| QuoteError (msg : message)
| EscapeError (msg : message)
| IndexError.

(** What a call does: return, raise, or (in the model only) exhaust the
    iteration budget given to a [while] loop. *)
Inductive outcome (A : Type) : Type :=
| Returns (a : A)
| Raises (e : exn)
| OutOfFuel.

Arguments Returns {A} a.
Arguments Raises {A} e.
Arguments OutOfFuel {A}.

Definition bind {A B : Type} (m : outcome A) (k : A -> outcome B) : outcome B :=
  match m with
  | Returns a => k a
  | Raises e => Raises e
  | OutOfFuel => OutOfFuel
  end.

Declare Scope outcome_scope.
Delimit Scope outcome_scope with outcome.
Notation "x <- m ;; k" := (bind m (fun x => k))
  (at level 61, m at next level, right associativity) : outcome_scope.
Local Open Scope outcome_scope.

(** ** Primitive string operations *)

(** [string[i]] for [0 <= i]. *)
Definition index (string : str) (i : nat) : outcome char :=
  match nth_error string i with
  | Some c => Returns c
  | None => Raises IndexError
  end.

(** [string[b:e]] for [0 <= b] and [0 <= e]. *)
Definition slice (string : str) (b e : nat) : str :=
  firstn (e - b) (skipn b string).

(** [word.find(c, start)] on an already positioned suffix: offset of the
    first [c], if any. *)
Fixpoint find_in (c : char) (l : str) : option nat :=
  match l with
  | [] => None
  | x :: l' => if (x =? c)%N then Some 0 else option_map S (find_in c l')
  end.

(** [word.find(c, start)]; [None] stands for Python's [-1]. *)
Definition find (word : str) (c : char) (start : nat) : option nat :=
  option_map (fun k => start + k) (find_in c (skipn start word)).

(** [i - 1 >= 0 and string[i - 1] == '\\'] *)
Definition preceded_by_backslash (string : str) (i : nat) : outcome bool :=
  if 1 <=? i then p <- index string (i - 1) ;; Returns (p =? backslash)%N
  else Returns false.

(** ** The source functions *)

Inductive _State : Type := SPACE | WORD | QUOTES.

Definition _State_eqb (a b : _State) : bool :=
  match a, b with
  | SPACE, SPACE | WORD, WORD | QUOTES, QUOTES => true
  | _, _ => false
  end.

Definition _accept_word_char (string : str) (i : nat) : outcome nat :=
  c <- index string i ;;
  bad <- (if isspace c then Returns true
          else if (c =? quote)%N
               then e <- preceded_by_backslash string i ;; Returns (negb e)
               else Returns false) ;;
  if (bad : bool) then Raises (InvalidAcceptError (ExpectedWordChar c i))
  else Returns (i + 1).

Definition _accept_space_char (string : str) (i : nat) : outcome nat :=
  c <- index string i ;;
  if negb (isspace c) then Raises (InvalidAcceptError (ExpectedSpaceChar c i))
  else Returns (i + 1).

(** The [while] loop of [_make_word]; every iteration removes one character
    of [word], so [length word] iterations are a sufficient budget. *)
Fixpoint _make_word_loop (fuel : nat) (begin : nat) (word : str)
    (backslash_loc : option nat) : outcome str :=
  match backslash_loc with
  | None => Returns word
  | Some loc =>
    match fuel with
    | 0 => OutOfFuel
    | S fuel' =>
      let next_idx := loc + 1 in
      if next_idx <? length word then
        next_char <- index word next_idx ;;
        if (backslash =? next_char)%N then
          let word' := firstn loc word ++ skipn (loc + 1) word in
          _make_word_loop fuel' begin word' (find word' backslash (loc + 1))
        else if (quote =? next_char)%N then
          let word' := firstn loc word ++ skipn (loc + 1) word in
          _make_word_loop fuel' begin word' (find word' backslash loc)
        else Raises (EscapeError (CannotEscape next_char (begin + next_idx)))
      else Raises (EscapeError (InvalidBackslash (begin + loc)))
    end
  end.

Definition _make_word (string : str) (begin end_ : nat) : outcome str :=
  let word := slice string begin end_ in
  _make_word_loop (length word) begin word (find word backslash 0).

Definition _process_space_state (string : str) (i : nat)
    : outcome (_State * nat) :=
  c <- index string i ;;
  if (c =? quote)%N then Returns (QUOTES, i + 1)
  else if negb (isspace c) then Returns (WORD, i)
  else Returns (SPACE, i + 1).

(** [result] is the caller's list, appended to in place: it is threaded
    through and returned with the tuple. *)
Definition _process_word_state (string : str) (i : nat)
    (begin_word : option nat) (result : list str)
    : outcome (_State * nat * option nat * list str) :=
  match begin_word with
  | None =>
    i' <- _accept_word_char string i ;;
    Returns (WORD, i', Some i, result)
  | Some b =>
    c <- index string i ;;
    if isspace c then
      word <- _make_word string b i ;;
      Returns (SPACE, i, None, result ++ [word])
    else
      i' <- _accept_word_char string i ;;
      Returns (WORD, i', begin_word, result)
  end.

(** [next_idx < len(string) and not str.isspace(string[next_idx])] *)
Definition followed_by_nonspace (string : str) (next_idx : nat) : outcome bool :=
  if next_idx <? length string
  then c <- index string next_idx ;; Returns (negb (isspace c))
  else Returns false.

Definition _process_quote_state (string : str) (i : nat)
    (begin_word : option nat) (result : list str)
    : outcome (_State * nat * option nat * list str) :=
  match begin_word with
  | None =>
    c <- index string i ;;
    if (c =? quote)%N then
      let result := result ++ [[]] in
      nonspace <- followed_by_nonspace string (i + 1) ;;
      if (nonspace : bool) then Raises (QuoteError SpaceMustFollowQuotes)
      else Returns (SPACE, i + 1, None, result)
    else Returns (QUOTES, i + 1, Some i, result)
  | Some b =>
    c <- index string i ;;
    closing <- (if (c =? quote)%N
                then e <- preceded_by_backslash string i ;; Returns (negb e)
                else Returns false) ;;
    if (closing : bool) then
      word <- _make_word string b i ;;
      let result := result ++ [word] in
      nonspace <- followed_by_nonspace string (i + 1) ;;
      if (nonspace : bool) then Raises (QuoteError SpaceMustFollowQuotes)
      else Returns (SPACE, i + 1, None, result)
    else Returns (QUOTES, i + 1, begin_word, result)
  end.

(** The local variables of [split] at the top of its loop. *)
Record locals : Type := Locals {
  state : _State;
  i : nat;
  begin_word : option nat;
  result : list str
}.

Definition initial : locals := Locals SPACE 0 None [].

(** One iteration of the loop body. *)
Definition body (string : str) (l : locals) : outcome locals :=
  match state l with
  | SPACE =>
    r <- _process_space_state string (i l) ;;
    let '(st, i') := r in
    Returns (Locals st i' (begin_word l) (result l))
  | WORD =>
    r <- _process_word_state string (i l) (begin_word l) (result l) ;;
    let '(st, i', bw, res) := r in
    Returns (Locals st i' bw res)
  | QUOTES =>
    r <- _process_quote_state string (i l) (begin_word l) (result l) ;;
    let '(st, i', bw, res) := r in
    Returns (Locals st i' bw res)
  end.

(** [while i < len(string): body] *)
Fixpoint scan (fuel : nat) (string : str) (l : locals) : outcome locals :=
  if i l <? length string then
    match fuel with
    | 0 => OutOfFuel
    | S fuel' => l' <- body string l ;; scan fuel' string l'
    end
  else Returns l.

(** What follows the loop. *)
Definition finish (string : str) (l : locals) : outcome (list str) :=
  match state l with
  | QUOTES => Raises (QuoteError QuoteNotClosed)
  | _ =>
    match begin_word l with
    | Some b =>
      word <- _make_word string b (i l) ;;
      Returns (result l ++ [word])
    | None => Returns (result l)
    end
  end.

(** Every index is examined at most twice, so twice the length bounds the
    number of iterations ([scan_budget] below). *)
Definition split (string : str) : outcome (list str) :=
  l <- scan (2 * length string) string initial ;;
  finish string l.

(** ** The error kinds of the specification

    The five kinds the specification names, and the kind each exception of
    the code stands for. *)

Inductive SplitError : Type :=
| UnexpectedQuoteInWord
| UnterminatedQuote
| MissingSpaceAfterQuote
| IllegalEscape (c : char) (pos : nat)
| DanglingEscape (pos : nat).

Definition kind_of (e : exn) : option SplitError :=
  match e with
  | InvalidAcceptError (ExpectedWordChar _ _) => Some UnexpectedQuoteInWord
  | QuoteError QuoteNotClosed => Some UnterminatedQuote
  | QuoteError SpaceMustFollowQuotes => Some MissingSpaceAfterQuote
  | EscapeError (CannotEscape c pos) => Some (IllegalEscape c pos)
  | EscapeError (InvalidBackslash pos) => Some (DanglingEscape pos)
  | _ => None
  end.

(** A kind with its position left out. *)
Definition forget_pos (k : SplitError) : SplitError :=
  match k with
  | IllegalEscape c _ => IllegalEscape c 0
  | DanglingEscape _ => DanglingEscape 0
  | _ => k
  end.

(** The Unescaper as the specification words it: one left-to-right pass
    over the raw slice, [pos] being the offset of the head of [raw] in the
    original input. *)
Fixpoint unescape (pos : nat) (raw : str) : str + SplitError :=
  match raw with
  | [] => inl []
  | c :: rest =>
    if (c =? backslash)%N then
      match rest with
      | [] => inr (DanglingEscape pos)
      | d :: rest' =>
        if (d =? backslash)%N || (d =? quote)%N then
          match unescape (pos + 2) rest' with
          | inl out => inl (d :: out)
          | inr k => inr k
          end
        else inr (IllegalEscape d (pos + 1))
      end
    else
      match unescape (pos + 1) rest with
      | inl out => inl (c :: out)
      | inr k => inr k
      end
  end.

(** What a call of the code amounts to in the specification's terms. *)
Definition observe {A : Type} (r : outcome A) : option (A + SplitError) :=
  match r with
  | Returns a => Some (inl a)
  | Raises e => option_map inr (kind_of e)
  | OutOfFuel => None
  end.

Definition forget {A : Type} (r : A + SplitError) : A + SplitError :=
  match r with
  | inl a => inl a
  | inr k => inr (forget_pos k)
  end.

(** ** Auxiliary definitions of the proofs *)

(** [_make_word]'s loop read as a recursion over what is left of the word;
    [pos] is [begin] plus the index reached in the word being rewritten. *)
Fixpoint decode (pos : nat) (raw : str) : outcome str :=
  match raw with
  | [] => Returns []
  | c :: rest =>
    if (c =? backslash)%N then
      match rest with
      | [] => Raises (EscapeError (InvalidBackslash pos))
      | d :: rest' =>
        if (backslash =? d)%N then
          out <- decode (pos + 1) rest' ;; Returns (backslash :: out)
        else if (quote =? d)%N then
          out <- decode (pos + 1) rest' ;; Returns (quote :: out)
        else Raises (EscapeError (CannotEscape d (pos + 1)))
      end
    else out <- decode (pos + 1) rest ;; Returns (c :: out)
  end.

(** The escape pairs of [raw] that are decoded before its decoding ends or
    fails. *)
Fixpoint collapsed (raw : str) : nat :=
  match raw with
  | [] => 0
  | c :: rest =>
    if (c =? backslash)%N then
      match rest with
      | [] => 0
      | d :: rest' =>
        if (d =? backslash)%N || (d =? quote)%N then S (collapsed rest') else 0
      end
    else collapsed rest
  end.

(** The value of [i - 1 >= 0 and string[i - 1] == '\\']. *)
Definition prev_bs (string : str) (i : nat) : bool :=
  match i with
  | 0 => false
  | S j =>
    match nth_error string j with
    | Some p => (p =? backslash)%N
    | None => false
    end
  end.

(** The value of the test made after a closing quote at [i]. *)
Definition next_nonspace (string : str) (i : nat) : bool :=
  match nth_error string (i + 1) with
  | Some c => negb (isspace c)
  | None => false
  end.

(** The loop body as a table over what it reads: the character [c] at the
    cursor, whether a backslash precedes it ([p]), whether a character that
    is no white space follows it ([n]), and the decoding [mw] of the
    pending span. *)
Definition body_of (c : char) (p n : bool) (mw : outcome str) (l : locals)
    : outcome locals :=
  match state l, begin_word l with
  | SPACE, bw =>
    if (c =? quote)%N then Returns (Locals QUOTES (i l + 1) bw (result l))
    else if negb (isspace c) then Returns (Locals WORD (i l) bw (result l))
    else Returns (Locals SPACE (i l + 1) bw (result l))
  | WORD, None =>
    if isspace c || (c =? quote)%N && negb p
    then Raises (InvalidAcceptError (ExpectedWordChar c (i l)))
    else Returns (Locals WORD (i l + 1) (Some (i l)) (result l))
  | WORD, Some b =>
    if isspace c then
      word <- mw ;; Returns (Locals SPACE (i l) None (result l ++ [word]))
    else if (c =? quote)%N && negb p
    then Raises (InvalidAcceptError (ExpectedWordChar c (i l)))
    else Returns (Locals WORD (i l + 1) (Some b) (result l))
  | QUOTES, None =>
    if (c =? quote)%N then
      if n then Raises (QuoteError SpaceMustFollowQuotes)
      else Returns (Locals SPACE (i l + 1) None (result l ++ [[]]))
    else Returns (Locals QUOTES (i l + 1) (Some (i l)) (result l))
  | QUOTES, Some b =>
    if (c =? quote)%N && negb p then
      word <- mw ;;
      if n then Raises (QuoteError SpaceMustFollowQuotes)
      else Returns (Locals SPACE (i l + 1) None (result l ++ [word]))
    else Returns (Locals QUOTES (i l + 1) (Some b) (result l))
  end.

Definition pending (string : str) (l : locals) : outcome str :=
  match begin_word l with
  | Some b => _make_word string b (i l)
  | None => Returns []
  end.

(** Whether [st] is the second of the two states that can examine index
    [j]: SPACE after WORD on white space, WORD after SPACE elsewhere. *)
Definition second (string : str) (st : _State) (j : nat) : nat :=
  match nth_error string j with
  | Some c =>
    if isspace c
    then (if _State_eqb st SPACE then 1 else 0)
    else (if _State_eqb st WORD then 1 else 0)
  | None => 0
  end.

(** Examinations are ranked by index, then by turn at that index. *)
Definition rank (string : str) (p : _State * nat) : nat :=
  2 * snd p + second string (fst p) (snd p).

(** Iterations left, at most. *)
Definition budget (string : str) (l : locals) : nat :=
  2 * length string - rank string (state l, i l).

(** The loop with the budget [split] gives it, from any point. *)
Definition run (string : str) (l : locals) : outcome locals :=
  scan (2 * length string) string l.

(** The (state, index) pairs the loop body is entered with. *)
Fixpoint examined (fuel : nat) (string : str) (l : locals)
    : list (_State * nat) :=
  if i l <? length string then
    match fuel with
    | 0 => []
    | S fuel' =>
      (state l, i l) ::
      match body string l with
      | Returns l' => examined fuel' string l'
      | _ => []
      end
    end
  else [].

(** The points at which the loop condition is evaluated in a call of
    [split]; [entered] is the value the cursor had when the current state
    was entered, so that [i l - entered] characters have been consumed in
    it. *)
Inductive top_of_loop (string : str) : nat -> locals -> Prop :=
| top_first : top_of_loop string 0 initial
| top_next entered l l' :
    top_of_loop string entered l ->
    i l < length string ->
    body string l = Returns l' ->
    top_of_loop string
      (if _State_eqb (state l') (state l) then entered else i l') l'.

(** What holds of the pending span at such a point. *)
Definition span_inv (string : str) (entered : nat) (l : locals) : Prop :=
  entered <= i l <= length string /\
  match state l, begin_word l with
  | SPACE, None => True
  | SPACE, Some _ => False
  | WORD, None =>
    entered = i l /\
    exists c, nth_error string (i l) = Some c /\
              isspace c = false /\ (c =? quote)%N = false
  | QUOTES, None =>
    entered = i l /\ exists j, i l = S j /\ nth_error string j = Some quote
  | WORD, Some b | QUOTES, Some b => b = entered /\ b < i l
  end.

(** The exceptions the loop body raises. *)
Definition raised_in_body (e : exn) : Prop :=
  match e with
  | InvalidAcceptError (ExpectedWordChar _ _)
  | QuoteError SpaceMustFollowQuotes
  | EscapeError (CannotEscape _ _)
  | EscapeError (InvalidBackslash _) => True
  | _ => False
  end.

(** The exceptions [_make_word] raises. *)
Definition raised_in_make_word (e : exn) : Prop :=
  match e with
  | EscapeError (CannotEscape _ _)
  | EscapeError (InvalidBackslash _) => True
  | _ => False
  end.

(** Positions in messages, moved by [off]. *)
Definition shift_message (off : nat) (m : message) : message :=
  match m with
  | ExpectedWordChar c k => ExpectedWordChar c (off + k)
  | ExpectedSpaceChar c k => ExpectedSpaceChar c (off + k)
  | CannotEscape c k => CannotEscape c (off + k)
  | InvalidBackslash k => InvalidBackslash (off + k)
  | _ => m
  end.

Definition shift_exn (off : nat) (e : exn) : exn :=
  match e with
  | InvalidAcceptError m => InvalidAcceptError (shift_message off m)
  | QuoteError m => QuoteError (shift_message off m)
  | EscapeError m => EscapeError (shift_message off m)
  | IndexError => IndexError
  end.

Definition map_outcome {A B : Type} (f : A -> B) (off : nat) (r : outcome A)
    : outcome B :=
  match r with
  | Returns a => Returns (f a)
  | Raises e => Raises (shift_exn off e)
  | OutOfFuel => OutOfFuel
  end.

(** The locals of a scan of [p ++ s], seen from a scan of [s] alone that
    started with [done] already collected. *)
Definition lift (off : nat) (done : list str) (l : locals) : locals :=
  Locals (state l) (off + i l) (option_map (Nat.add off) (begin_word l))
         (done ++ result l).

(** [sep.join(words)] *)
Fixpoint join (sep : str) (words : list str) : str :=
  match words with
  | [] => []
  | [w] => w
  | w :: rest => w ++ sep ++ join sep rest
  end.

(** A character that is no white space, quote or backslash. *)
Definition plain (c : char) : bool :=
  negb (isspace c) && negb (c =? quote)%N && negb (c =? backslash)%N.

Definition whitespace (ws : str) : Prop := Forall (fun c => isspace c = true) ws.

(** The outcome of [split] with the positions of its messages left out. *)
Definition outline (r : outcome (list str)) : option (list str + SplitError) :=
  option_map forget (observe r).

(** ** Definitions of the further properties *)

(** A word written out for [split]: a backslash put before each of its
    backslashes and quotes. *)
Definition escaped (word : str) : str :=
  flat_map (fun c => if (c =? backslash)%N || (c =? quote)%N
                     then [backslash; c] else [c]) word.

(** A word written out between quotes. *)
Definition quoted (word : str) : str := [quote] ++ escaped word ++ [quote].

(** The steps the loop body takes from the points a call of [split] goes
    through, one constructor for each branch that returns. *)
Inductive transition (string : str) : locals -> locals -> Prop :=
| step_open k res :
    nth_error string k = Some quote ->
    transition string (Locals SPACE k None res) (Locals QUOTES (k + 1) None res)
| step_begin k c res :
    nth_error string k = Some c -> isspace c = false -> c <> quote ->
    transition string (Locals SPACE k None res) (Locals WORD k None res)
| step_skip k c res :
    nth_error string k = Some c -> isspace c = true ->
    transition string (Locals SPACE k None res) (Locals SPACE (k + 1) None res)
| step_first k c res :
    nth_error string k = Some c -> isspace c = false -> c <> quote ->
    transition string (Locals WORD k None res)
               (Locals WORD (k + 1) (Some k) res)
| step_end_word k b c word res :
    nth_error string k = Some c -> isspace c = true -> b < k ->
    _make_word string b k = Returns word ->
    transition string (Locals WORD k (Some b) res)
               (Locals SPACE k None (res ++ [word]))
| step_more k b c res :
    nth_error string k = Some c -> isspace c = false -> b < k ->
    (c = quote -> prev_bs string k = true) ->
    transition string (Locals WORD k (Some b) res)
               (Locals WORD (k + 1) (Some b) res)
| step_empty k res :
    nth_error string k = Some quote -> next_nonspace string k = false ->
    transition string (Locals QUOTES k None res)
               (Locals SPACE (k + 1) None (res ++ [[]]))
| step_first_quoted k c res :
    nth_error string k = Some c -> c <> quote ->
    transition string (Locals QUOTES k None res)
               (Locals QUOTES (k + 1) (Some k) res)
| step_close k b word res :
    nth_error string k = Some quote -> prev_bs string k = false -> b < k ->
    _make_word string b k = Returns word ->
    next_nonspace string k = false ->
    transition string (Locals QUOTES k (Some b) res)
               (Locals SPACE (k + 1) None (res ++ [word]))
| step_inside k b c res :
    nth_error string k = Some c -> b < k ->
    (c = quote -> prev_bs string k = true) ->
    transition string (Locals QUOTES k (Some b) res)
               (Locals QUOTES (k + 1) (Some b) res).

(** The exceptions the loop body raises from those points, one constructor
    for each [raise] that can be reached. *)
Inductive failure (string : str) : locals -> exn -> Prop :=
| fail_quote_in_word k b res :
    nth_error string k = Some quote -> prev_bs string k = false -> b < k ->
    failure string (Locals WORD k (Some b) res)
            (InvalidAcceptError (ExpectedWordChar quote k))
| fail_word_escape k b c e res :
    nth_error string k = Some c -> isspace c = true -> b < k ->
    _make_word string b k = Raises e ->
    failure string (Locals WORD k (Some b) res) e
| fail_empty_no_space k res :
    nth_error string k = Some quote -> next_nonspace string k = true ->
    failure string (Locals QUOTES k None res) (QuoteError SpaceMustFollowQuotes)
| fail_quoted_escape k b e res :
    nth_error string k = Some quote -> prev_bs string k = false -> b < k ->
    _make_word string b k = Raises e ->
    failure string (Locals QUOTES k (Some b) res) e
| fail_close_no_space k b word res :
    nth_error string k = Some quote -> prev_bs string k = false -> b < k ->
    _make_word string b k = Returns word ->
    next_nonspace string k = true ->
    failure string (Locals QUOTES k (Some b) res)
            (QuoteError SpaceMustFollowQuotes).

(** ** The test table of [arg_split_tests.py] *)

(** The exception classes the table names in its ['except'] entries. *)
Inductive exn_class : Type :=
| QuoteErrorClass
| InvalidAcceptErrorClass
| EscapeErrorClass.

(** [except to_catch as err] catches [e]. *)
Definition caught_by (cls : exn_class) (e : exn) : bool :=
  match cls, e with
  | QuoteErrorClass, QuoteError _ => true
  | InvalidAcceptErrorClass, InvalidAcceptError _ => true
  | EscapeErrorClass, EscapeError _ => true
  | _, _ => false
  end.

(** A value of the [tests] dictionary: an input with its ['output'] or its
    ['except']. *)
Inductive expectation : Type :=
| Output (output : list str)
| Except (cls : exn_class).

Record test_case : Type := TestCase {
  test_input : str;
  test_expect : expectation
}.

Inductive verdict : Type := PASSED | FAILED.

Fixpoint str_eqb (a b : str) : bool :=
  match a, b with
  | [], [] => true
  | x :: a', y :: b' => (x =? y)%N && str_eqb a' b'
  | _, _ => false
  end.

Fixpoint words_eqb (a b : list str) : bool :=
  match a, b with
  | [], [] => true
  | x :: a', y :: b' => str_eqb x y && words_eqb a' b'
  | _, _ => false
  end.

(** The body of the loop over the table: the verdict printed for one
    entry. *)
Definition run_test (val : test_case) : verdict :=
  match test_expect val with
  | Output output =>
    match split (test_input val) with
    | Returns split_out => if words_eqb split_out output then PASSED else FAILED
    | _ => FAILED
    end
  | Except to_catch =>
    match split (test_input val) with
    | Raises err => if caught_by to_catch err then PASSED else FAILED
    | _ => FAILED
    end
  end.

Definition tests : list (String.string * test_case) :=
  [ ("normal"%string,
     TestCase (lit "the quick brown fox")
              (Output [lit "the"; lit "quick"; lit "brown"; lit "fox"]));
    ("quote normal"%string,
     TestCase (lit "the quick " ++ [quote] ++ lit "brown fox" ++ [quote])
              (Output [lit "the"; lit "quick"; lit "brown fox"]));
    ("space padding"%string,
     TestCase (lit "     the quick brown fox     ")
              (Output [lit "the"; lit "quick"; lit "brown"; lit "fox"]));
    ("begin quote"%string,
     TestCase ([quote] ++ lit "the quick" ++ [quote] ++ lit " brown fox")
              (Output [lit "the quick"; lit "brown"; lit "fox"]));
    ("empty word"%string,
     TestCase (lit "the " ++ [quote; quote] ++ lit " quick brown fox")
              (Output [lit "the"; []; lit "quick"; lit "brown"; lit "fox"]));
    ("begin empty word"%string,
     TestCase ([quote; quote] ++ lit " the quick brown fox")
              (Output [[]; lit "the"; lit "quick"; lit "brown"; lit "fox"]));
    ("end empty word"%string,
     TestCase (lit "the quick brown fox " ++ [quote; quote])
              (Output [lit "the"; lit "quick"; lit "brown"; lit "fox"; []]));
    ("escaped quote"%string,
     TestCase (lit "the qu" ++ [backslash; quote] ++ lit "ck brown fox")
              (Output [lit "the"; lit "qu" ++ [quote] ++ lit "ck";
                       lit "brown"; lit "fox"]));
    ("escaped quote begin"%string,
     TestCase ([backslash; quote] ++ lit "the quick brown fox")
              (Output [[quote] ++ lit "the"; lit "quick"; lit "brown";
                       lit "fox"]));
    ("escaped quote end"%string,
     TestCase (lit "the quick brown fox" ++ [backslash; quote])
              (Output [lit "the"; lit "quick"; lit "brown";
                       lit "fox" ++ [quote]]));
    ("escaped quote in quote"%string,
     TestCase (lit "the " ++ [quote] ++ lit "qu" ++ [backslash; quote]
                 ++ lit "ck" ++ [quote] ++ lit " brown fox")
              (Output [lit "the"; lit "qu" ++ [quote] ++ lit "ck";
                       lit "brown"; lit "fox"]));
    ("escaped quote begin in quote"%string,
     TestCase ([quote; backslash; quote] ++ lit "the quick" ++ [quote]
                 ++ lit " brown fox")
              (Output [[quote] ++ lit "the quick"; lit "brown"; lit "fox"]));
    ("escaped quote end in quote"%string,
     TestCase (lit "the quick " ++ [quote] ++ lit "brown fox"
                 ++ [backslash; quote; quote])
              (Output [lit "the"; lit "quick"; lit "brown fox" ++ [quote]]));
    ("escape backslash"%string,
     TestCase (lit "the qu" ++ [backslash; backslash] ++ lit "ck brown fox")
              (Output [lit "the"; lit "qu" ++ [backslash] ++ lit "ck";
                       lit "brown"; lit "fox"]));
    ("escape backslash begin"%string,
     TestCase ([backslash; backslash] ++ lit "the quick brown fox")
              (Output [[backslash] ++ lit "the"; lit "quick"; lit "brown";
                       lit "fox"]));
    ("escape backslash end"%string,
     TestCase (lit "the quick brown fox" ++ [backslash; backslash])
              (Output [lit "the"; lit "quick"; lit "brown";
                       lit "fox" ++ [backslash]]));
    ("open quote error"%string,
     TestCase (lit "the quick " ++ [quote] ++ lit "brown fox")
              (Except QuoteErrorClass));
    ("quote in word error"%string,
     TestCase (lit "the qu" ++ [quote] ++ lit "ck brown fox")
              (Except InvalidAcceptErrorClass));
    ("no space after quote error"%string,
     TestCase (lit "the quick " ++ [quote] ++ lit "brown" ++ [quote]
                 ++ lit "fox")
              (Except QuoteErrorClass));
    ("quote at end of string error"%string,
     TestCase (lit "the quick brown fox " ++ [quote])
              (Except QuoteErrorClass));
    ("invalid escape character error"%string,
     TestCase (lit "the " ++ [backslash] ++ lit "quick brown fox")
              (Except EscapeErrorClass));
    ("backslash at end of input error"%string,
     TestCase (lit "the quick brown fox" ++ [backslash])
              (Except EscapeErrorClass)) ].

(** [_tests]: the verdict printed for each key, in the order of the
    table. *)
Definition _tests : list (String.string * verdict) :=
  map (fun entry => (fst entry, run_test (snd entry))) tests.

(** * Properties *)

(** ** Characters, indexing and slices *)

Lemma isspace_not_quote c : isspace c = true -> (c =? quote)%N = false.
Proof.
  intros H. apply N.eqb_neq. intros ->. discriminate H.
Qed.

Lemma isspace_not_backslash c : isspace c = true -> (c =? backslash)%N = false.
Proof.
  intros H. apply N.eqb_neq. intros ->. discriminate H.
Qed.

Lemma plain_inv c :
  plain c = true ->
  isspace c = false /\ (c =? quote)%N = false /\ (c =? backslash)%N = false.
Proof.
  unfold plain. intros H.
  apply andb_true_iff in H. destruct H as [H Hb].
  apply andb_true_iff in H. destruct H as [Hs Hq].
  apply negb_true_iff in Hs, Hq, Hb. auto.
Qed.

Lemma index_at (string : str) k c : nth_error string k = Some c -> index string k = Returns c.
Proof.
  unfold index. intros ->. reflexivity.
Qed.

Lemma char_at (string : str) k : k < length string -> exists c, nth_error string k = Some c.
Proof.
  intros H. destruct (nth_error string k) as [c|] eqn:E.
  - now exists c.
  - apply nth_error_None in E. lia.
Qed.

Lemma preceded_by_backslash_eq string k :
  k < length string -> preceded_by_backslash string k = Returns (prev_bs string k).
Proof.
  intros H. unfold preceded_by_backslash, prev_bs.
  destruct k as [|j]; [reflexivity|].
  cbn [Nat.leb]. replace (S j - 1) with j by lia.
  destruct (char_at string j) as [p Hp]; [lia|].
  rewrite (index_at _ _ _ Hp), Hp. reflexivity.
Qed.

Lemma followed_by_nonspace_eq string k :
  followed_by_nonspace string (k + 1) = Returns (next_nonspace string k).
Proof.
  unfold followed_by_nonspace, next_nonspace.
  destruct (Nat.ltb_spec (k + 1) (length string)) as [H|H].
  - destruct (char_at string (k + 1) H) as [c Hc].
    rewrite (index_at _ _ _ Hc), Hc. reflexivity.
  - apply nth_error_None in H. rewrite H. reflexivity.
Qed.

Lemma slice_app_l (s t : str) b e : e <= length s -> slice (s ++ t) b e = slice s b e.
Proof.
  intros He. unfold slice. rewrite skipn_app, firstn_app, length_skipn.
  replace (e - b - (length s - b)) with 0 by lia.
  cbn [firstn]. apply app_nil_r.
Qed.

Lemma slice_app_r (p s : str) b e : slice (p ++ s) (length p + b) (length p + e) = slice s b e.
Proof.
  unfold slice. rewrite skipn_app.
  rewrite (skipn_all2 p) by lia.
  replace (length p + b - length p) with b by lia.
  replace (length p + e - (length p + b)) with (e - b) by lia.
  reflexivity.
Qed.

Lemma slice_full (s : str) : slice s 0 (length s) = s.
Proof.
  unfold slice. cbn [skipn]. rewrite Nat.sub_0_r. apply firstn_all.
Qed.

(** ** [find] *)

Lemma find_in_none c l :
  find_in c l = None <-> Forall (fun x => (x =? c)%N = false) l.
Proof.
  induction l as [|x l IH]; cbn [find_in].
  - split; [constructor | reflexivity].
  - destruct (x =? c)%N eqn:E.
    + split; [discriminate|]. intros H. inversion H; subst. congruence.
    + destruct (find_in c l); cbn [option_map].
      * split; [discriminate|]. intros H. inversion H; subst.
        apply IH in H3. discriminate.
      * split; [|reflexivity]. intros _. constructor; [exact E|].
        now apply IH.
Qed.

Lemma find_in_some c l k :
  find_in c l = Some k ->
  exists pre rest,
    l = pre ++ c :: rest /\ length pre = k /\
    Forall (fun x => (x =? c)%N = false) pre.
Proof.
  revert k. induction l as [|x l IH]; cbn [find_in]; intros k H; [discriminate|].
  destruct (x =? c)%N eqn:E.
  - injection H as <-. apply N.eqb_eq in E. subst x.
    exists [], l. repeat split. constructor.
  - destruct (find_in c l) as [k'|]; [|discriminate].
    cbn [option_map] in H. injection H as <-.
    destruct (IH k' eq_refl) as (pre & rest & -> & Hlen & Hpre).
    exists (x :: pre), rest. repeat split.
    + cbn [length]. now rewrite Hlen.
    + now constructor.
Qed.

Lemma find_at_split done todo c :
  find (done ++ todo) c (length done) =
  option_map (Nat.add (length done)) (find_in c todo).
Proof.
  unfold find. rewrite skipn_app, skipn_all, Nat.sub_diag. reflexivity.
Qed.

Lemma find_skip_one done x todo c :
  (x =? c)%N = false ->
  find (done ++ x :: todo) c (length done) =
  find ((done ++ [x]) ++ todo) c (length (done ++ [x])).
Proof.
  intros Hx. rewrite !find_at_split. cbn [find_in]. rewrite Hx.
  rewrite length_app. cbn [length].
  destruct (find_in c todo); cbn [option_map]; [f_equal; lia | reflexivity].
Qed.

(** ** [_make_word] is [decode] on the slice *)

Lemma remove_at (a : str) x t :
  firstn (length a) (a ++ x :: t) ++ skipn (length a + 1) (a ++ x :: t) = a ++ t.
Proof.
  rewrite firstn_app, Nat.sub_diag, firstn_all. cbn [firstn]. rewrite app_nil_r.
  rewrite skipn_app, (skipn_all2 a) by lia.
  replace (length a + 1 - length a) with 1 by lia. reflexivity.
Qed.

Lemma nth_error_after (a : str) x d t :
  nth_error (a ++ x :: d :: t) (length a + 1) = Some d.
Proof.
  rewrite nth_error_app2 by lia.
  replace (length a + 1 - length a) with 1 by lia. reflexivity.
Qed.

Lemma decode_plain_prefix pre :
  Forall (fun x => (x =? backslash)%N = false) pre ->
  forall pos t,
    decode pos (pre ++ t) =
    (out <- decode (pos + length pre) t ;; Returns (pre ++ out)).
Proof.
  induction 1 as [|x pre Hx Hpre IH]; intros pos t.
  - cbn [app length]. rewrite Nat.add_0_r. destruct (decode pos t); reflexivity.
  - cbn [app decode length]. rewrite Hx, IH.
    replace (pos + 1 + length pre) with (pos + S (length pre)) by lia.
    destruct (decode (pos + S (length pre)) t); reflexivity.
Qed.

Lemma decode_plain w :
  Forall (fun x => (x =? backslash)%N = false) w ->
  forall pos, decode pos w = Returns w.
Proof.
  intros H pos. rewrite <- (app_nil_r w) at 1.
  rewrite (decode_plain_prefix w H). cbn [decode bind]. now rewrite app_nil_r.
Qed.

Lemma _make_word_loop_decode fuel :
  forall begin done todo,
    length todo <= fuel ->
    _make_word_loop fuel begin (done ++ todo)
      (find (done ++ todo) backslash (length done)) =
    (out <- decode (begin + length done) todo ;; Returns (done ++ out)).
Proof.
  induction fuel as [|fuel IH]; intros begin done todo Hfuel.
  - destruct todo; [|cbn [length] in Hfuel; lia].
    rewrite find_at_split. reflexivity.
  - rewrite find_at_split.
    destruct (find_in backslash todo) as [k|] eqn:E; cbn [option_map].
    2:{ apply find_in_none in E. rewrite (decode_plain todo E). reflexivity. }
    destruct (find_in_some _ _ _ E) as (pre & rest & -> & Hk & Hpre).
    subst k. rewrite (decode_plain_prefix pre Hpre).
    rewrite app_assoc, <- length_app.
    set (a := done ++ pre).
    replace (begin + length done + length pre) with (begin + length a)
      by (unfold a; rewrite length_app; lia).
    cbn [_make_word_loop].
    destruct rest as [|d rest].
    + replace (length a + 1 <? length (a ++ [backslash])) with false
        by (symmetry; apply Nat.ltb_ge; rewrite length_app; cbn [length]; lia).
      reflexivity.
    + replace (length a + 1 <? length (a ++ backslash :: d :: rest)) with true
        by (symmetry; apply Nat.ltb_lt; rewrite length_app; cbn [length]; lia).
      rewrite (index_at _ _ _ (nth_error_after a backslash d rest)).
      cbn [bind]. rewrite remove_at. cbn [decode].
      rewrite N.eqb_refl.
      rewrite length_app in Hfuel. cbn [length] in Hfuel.
      destruct (backslash =? d)%N eqn:Eb.
      * apply N.eqb_eq in Eb. subst d.
        replace (a ++ backslash :: rest) with ((a ++ [backslash]) ++ rest)
          by (rewrite <- app_assoc; reflexivity).
        replace (length a + 1) with (length (a ++ [backslash]))
          by (rewrite length_app; reflexivity).
        rewrite (IH begin (a ++ [backslash]) rest) by lia.
        rewrite length_app. cbn [length].
        replace (begin + (length a + 1)) with (begin + length a + 1) by lia.
        destruct (decode (begin + length a + 1) rest); cbn [bind];
          [|reflexivity|reflexivity].
        unfold a. now rewrite <- !app_assoc.
      * destruct (quote =? d)%N eqn:Eq.
        -- apply N.eqb_eq in Eq. subst d.
           rewrite find_skip_one by reflexivity.
           replace (a ++ quote :: rest) with ((a ++ [quote]) ++ rest)
             by (rewrite <- app_assoc; reflexivity).
           rewrite (IH begin (a ++ [quote]) rest) by lia.
           rewrite length_app. cbn [length].
           replace (begin + (length a + 1)) with (begin + length a + 1) by lia.
           destruct (decode (begin + length a + 1) rest); cbn [bind];
             [|reflexivity|reflexivity].
           unfold a. now rewrite <- !app_assoc.
        -- replace (begin + (length a + 1)) with (begin + length a + 1) by lia.
           reflexivity.
Qed.

Lemma _make_word_decode string b e :
  _make_word string b e = decode b (slice string b e).
Proof.
  unfold _make_word.
  pose proof (_make_word_loop_decode (length (slice string b e)) b []
                (slice string b e) (le_n _)) as H.
  cbn [app length] in H. rewrite Nat.add_0_r in H. cbv zeta. rewrite H.
  destruct (decode b (slice string b e)); reflexivity.
Qed.

(** [decode] ends, and raises nothing but the two escape errors. *)
Lemma decode_cases raw :
  forall pos,
    (exists w, decode pos raw = Returns w) \/
    (exists e, decode pos raw = Raises e /\ raised_in_make_word e).
Proof.
  induction raw as [raw IH] using (induction_ltof1 _ (@length N)).
  unfold ltof in IH. intros pos.
  destruct raw as [|c rest]; [left; now exists []|].
  cbn [decode]. destruct (c =? backslash)%N.
  - destruct rest as [|d rest]; [right; eexists; split; [reflexivity|exact I]|].
    destruct (backslash =? d)%N.
    + destruct (IH rest (ltac:(cbn [length]; lia)) (pos + 1))
        as [[w ->]|[e [-> He]]]; cbn [bind]; eauto.
    + destruct (quote =? d)%N; [|right; eexists; split; [reflexivity|exact I]].
      destruct (IH rest (ltac:(cbn [length]; lia)) (pos + 1))
        as [[w ->]|[e [-> He]]]; cbn [bind]; eauto.
  - destruct (IH rest (ltac:(cbn [length]; lia)) (pos + 1))
      as [[w ->]|[e [-> He]]]; cbn [bind]; eauto.
Qed.

Lemma decode_shift off raw :
  forall pos, decode (off + pos) raw = map_outcome (fun w => w) off (decode pos raw).
Proof.
  induction raw as [raw IH] using (induction_ltof1 _ (@length N)).
  unfold ltof in IH. intros pos.
  destruct raw as [|c rest]; [reflexivity|].
  cbn [decode]. destruct (c =? backslash)%N.
  - destruct rest as [|d rest]; [reflexivity|].
    replace (off + pos + 1) with (off + (pos + 1)) by lia.
    destruct (backslash =? d)%N.
    + rewrite IH by (cbn [length]; lia).
      destruct (decode (pos + 1) rest); reflexivity.
    + destruct (quote =? d)%N; [|reflexivity].
      rewrite IH by (cbn [length]; lia).
      destruct (decode (pos + 1) rest); reflexivity.
  - replace (off + pos + 1) with (off + (pos + 1)) by lia.
    rewrite IH by (cbn [length]; lia).
    destruct (decode (pos + 1) rest); reflexivity.
Qed.

(** ** The loop body as a table *)

Lemma body_eq string l c :
  nth_error string (i l) = Some c ->
  body string l =
  body_of c (prev_bs string (i l)) (next_nonspace string (i l))
          (pending string l) l.
Proof.
  intros Hc.
  assert (Hlt : i l < length string)
    by (apply nth_error_Some; rewrite Hc; discriminate).
  destruct l as [st k bw res]. cbn [i] in Hc, Hlt.
  unfold body, body_of, pending. cbn [state i begin_word result].
  destruct st.
  - unfold _process_space_state. rewrite (index_at _ _ _ Hc). cbn [bind].
    destruct (c =? quote)%N; [reflexivity|].
    destruct (negb (isspace c)); reflexivity.
  - unfold _process_word_state, _accept_word_char.
    rewrite (index_at _ _ _ Hc), (preceded_by_backslash_eq _ _ Hlt).
    destruct bw as [b|]; cbn [bind].
    + destruct (isspace c) eqn:Es.
      * destruct (_make_word string b k); reflexivity.
      * cbn [bind]. rewrite ?Es. cbn [bind].
        destruct (c =? quote)%N; cbn [bind andb]; [|reflexivity].
        destruct (prev_bs string k); reflexivity.
    + destruct (isspace c); cbn [bind orb]; [reflexivity|].
      destruct (c =? quote)%N; cbn [bind andb]; [|reflexivity].
      destruct (prev_bs string k); reflexivity.
  - unfold _process_quote_state.
    rewrite (index_at _ _ _ Hc), (preceded_by_backslash_eq _ _ Hlt),
      followed_by_nonspace_eq.
    destruct bw as [b|]; cbn [bind].
    + destruct (c =? quote)%N; cbn [bind andb]; [|reflexivity].
      destruct (prev_bs string k); cbn [bind negb]; [reflexivity|].
      destruct (_make_word string b k); cbn [bind]; [|reflexivity|reflexivity].
      destruct (next_nonspace string k); reflexivity.
    + destruct (c =? quote)%N; [|reflexivity].
      destruct (next_nonspace string k); reflexivity.
Qed.

Lemma pending_cases string l :
  (exists w, pending string l = Returns w) \/
  (exists e, pending string l = Raises e /\ raised_in_make_word e).
Proof.
  unfold pending. destruct (begin_word l) as [b|].
  - rewrite _make_word_decode. apply decode_cases.
  - left. now exists [].
Qed.

Lemma raised_in_make_word_body e : raised_in_make_word e -> raised_in_body e.
Proof.
  destruct e as [m|m|m|]; try contradiction. destruct m; auto.
Qed.

(** ** The budget of the loop *)

Lemma second_le string st j : second string st j <= 1.
Proof.
  unfold second. destruct (nth_error string j) as [c|]; [|lia].
  destruct (isspace c); [destruct (_State_eqb st SPACE)
                        |destruct (_State_eqb st WORD)]; lia.
Qed.

Lemma body_of_rank string l l' c p n mw :
  nth_error string (i l) = Some c ->
  body_of c p n mw l = Returns l' ->
  rank string (state l, i l) < rank string (state l', i l') /\
  i l <= i l' <= i l + 1 /\
  (i l' = i l -> state l' <> state l).
Proof.
  intros Hc. unfold rank. cbn [fst snd].
  pose proof (second_le string (state l') (i l + 1)) as Hle.
  unfold body_of, second at 1. rewrite Hc.
  destruct l as [st k bw res]. cbn [state i begin_word result] in *.
  destruct st; [|destruct bw as [b|] | destruct bw as [b|]].
  - destruct (c =? quote)%N eqn:Eq.
    + intros [= <-]. cbn [state i] in *.
      destruct (isspace c); cbn [_State_eqb]; lia.
    + destruct (isspace c) eqn:Es; cbn [negb _State_eqb].
      * intros [= <-]. cbn [state i] in *. lia.
      * intros [= <-]. cbn [state i]. unfold second. rewrite Hc, Es.
        cbn [_State_eqb]. repeat split; try lia. discriminate.
  - destruct (isspace c) eqn:Es; cbn [_State_eqb].
    + destruct mw; cbn [bind]; try discriminate.
      intros [= <-]. cbn [state i]. unfold second. rewrite Hc, Es.
      cbn [_State_eqb]. repeat split; try lia. discriminate.
    + destruct ((c =? quote)%N && negb p); [discriminate|].
      intros [= <-]. cbn [state i] in *. lia.
  - destruct (isspace c) eqn:Es; cbn [orb _State_eqb]; [discriminate|].
    destruct ((c =? quote)%N && negb p); [discriminate|].
    intros [= <-]. cbn [state i] in *. lia.
  - assert (Hr : (if isspace c then 0 else 0) = 0) by (destruct (isspace c); lia).
    cbn [_State_eqb]. rewrite Hr.
    destruct ((c =? quote)%N && negb p).
    + destruct mw; cbn [bind]; try discriminate.
      destruct n; [discriminate|].
      intros [= <-]. cbn [state i] in *. lia.
    + intros [= <-]. cbn [state i] in *. lia.
  - assert (Hr : (if isspace c then 0 else 0) = 0) by (destruct (isspace c); lia).
    cbn [_State_eqb]. rewrite Hr.
    destruct (c =? quote)%N.
    + destruct n; [discriminate|].
      intros [= <-]. cbn [state i] in *. lia.
    + intros [= <-]. cbn [state i] in *. lia.
Qed.

Lemma body_rank string l l' :
  i l < length string ->
  body string l = Returns l' ->
  rank string (state l, i l) < rank string (state l', i l') /\
  i l <= i l' <= i l + 1 /\
  (i l' = i l -> state l' <> state l).
Proof.
  intros Hlt Hb. destruct (char_at string (i l) Hlt) as [c Hc].
  rewrite (body_eq _ _ _ Hc) in Hb. eapply body_of_rank; eauto.
Qed.

Lemma budget_pos string l : i l < length string -> 0 < budget string l.
Proof.
  intros H. unfold budget, rank. cbn [fst snd].
  pose proof (second_le string (state l) (i l)). lia.
Qed.

Lemma body_budget string l l' :
  i l < length string ->
  body string l = Returns l' ->
  budget string l' < budget string l.
Proof.
  intros Hlt Hb. pose proof (budget_pos string l Hlt) as Hpos.
  destruct (body_rank _ _ _ Hlt Hb) as (Hr & _ & _).
  unfold budget in *. lia.
Qed.

Lemma scan_enough string fuel :
  forall fuel' l,
    budget string l <= fuel ->
    budget string l <= fuel' ->
    scan fuel string l = scan fuel' string l.
Proof.
  induction fuel as [|fuel IH]; intros fuel' l Hf Hf'.
  - destruct (Nat.ltb_spec (i l) (length string)) as [Hlt|Hge].
    + pose proof (budget_pos string l Hlt). lia.
    + destruct fuel'; cbn [scan];
        (replace (i l <? length string) with false
           by (symmetry; now apply Nat.ltb_ge)); reflexivity.
  - destruct (Nat.ltb_spec (i l) (length string)) as [Hlt|Hge].
    + pose proof (budget_pos string l Hlt).
      destruct fuel' as [|fuel']; [lia|]. cbn [scan].
      destruct (body string l) as [l'| |] eqn:Hb; cbn [bind];
        [|reflexivity|reflexivity].
      pose proof (body_budget _ _ _ Hlt Hb).
      destruct (i l <? length string); [|reflexivity].
      apply IH; lia.
    + destruct fuel'; cbn [scan];
        (replace (i l <? length string) with false
           by (symmetry; now apply Nat.ltb_ge)); reflexivity.
Qed.

Lemma budget_le string l : budget string l <= 2 * length string.
Proof.
  unfold budget. lia.
Qed.

Lemma run_done string l : length string <= i l -> run string l = Returns l.
Proof.
  intros H. unfold run.
  destruct (2 * length string); cbn [scan];
    (replace (i l <? length string) with false
       by (symmetry; now apply Nat.ltb_ge)); reflexivity.
Qed.

Lemma run_step string l :
  i l < length string ->
  run string l = (l' <- body string l ;; run string l').
Proof.
  intros Hlt. unfold run.
  pose proof (budget_le string l).
  rewrite (scan_enough string (2 * length string) (S (2 * length string)) l)
    by lia.
  cbn [scan].
  replace (i l <? length string) with true by (symmetry; now apply Nat.ltb_lt).
  reflexivity.
Qed.

(** Induction along the loop: a property holds at a point when it holds at
    the point the body leads to. *)
Lemma loop_ind string (P : locals -> Prop) :
  (forall l,
      (forall l', i l < length string -> body string l = Returns l' -> P l') ->
      P l) ->
  forall l, P l.
Proof.
  intros step l.
  induction l as [l IH] using (induction_ltof1 _ (budget string)).
  unfold ltof in IH. apply step. intros l' Hlt Hb.
  apply IH. eapply body_budget; eauto.
Qed.

(** ** The pending span at the top of the loop *)

Lemma top_of_loop_inv string entered l :
  top_of_loop string entered l -> span_inv string entered l.
Proof.
  induction 1 as [|entered l l' Htop IH Hlt Hb].
  - unfold span_inv. cbn. repeat split; lia.
  - destruct (char_at string (i l) Hlt) as [c Hc].
    destruct (body_rank _ _ _ Hlt Hb) as (_ & Hi & _).
    rewrite (body_eq _ _ _ Hc) in Hb.
    destruct IH as (Hrange & IH). unfold span_inv.
    destruct l as [st k bw res]. cbn [state i begin_word result] in *.
    unfold body_of in Hb. cbn [state i begin_word result] in Hb.
    destruct st; [|destruct bw as [b|] | destruct bw as [b|]].
    + destruct bw; [contradiction|].
      destruct (c =? quote)%N eqn:Eq.
      * injection Hb as <-. cbn. repeat split; try lia.
        exists k. split; [lia|]. apply N.eqb_eq in Eq. now subst c.
      * destruct (isspace c) eqn:Es; cbn [negb] in Hb; injection Hb as <-; cbn.
        -- repeat split; lia.
        -- repeat split; try lia. exists c. auto.
    + destruct (isspace c).
      * destruct (pending string _); cbn [bind] in Hb; try discriminate.
        injection Hb as <-. cbn. repeat split; lia.
      * destruct ((c =? quote)%N && negb (prev_bs string k)); [discriminate|].
        injection Hb as <-. cbn. repeat split; lia.
    + destruct (isspace c || (c =? quote)%N && negb (prev_bs string k));
        [discriminate|].
      injection Hb as <-. cbn. repeat split; lia.
    + destruct ((c =? quote)%N && negb (prev_bs string k)).
      * destruct (pending string _); cbn [bind] in Hb; try discriminate.
        destruct (next_nonspace string k); [discriminate|].
        injection Hb as <-. cbn. repeat split; lia.
      * injection Hb as <-. cbn. repeat split; lia.
    + destruct (c =? quote)%N.
      * destruct (next_nonspace string k); [discriminate|].
        injection Hb as <-. cbn. repeat split; lia.
      * injection Hb as <-. cbn. repeat split; lia.
Qed.

Lemma run_top string :
  forall l entered l1,
    top_of_loop string entered l ->
    run string l = Returns l1 ->
    exists entered1, top_of_loop string entered1 l1.
Proof.
  intros l. pattern l. apply (loop_ind string). clear l.
  intros l IH entered l1 Htop Hrun.
  destruct (Nat.ltb_spec (i l) (length string)) as [Hlt|Hge].
  - rewrite (run_step _ _ Hlt) in Hrun.
    destruct (body string l) as [l'| |] eqn:Hb; cbn [bind] in Hrun;
      try discriminate.
    eapply (IH l' Hlt eq_refl); [|exact Hrun].
    eapply top_next; eauto.
  - rewrite (run_done _ _ Hge) in Hrun. injection Hrun as <-. eauto.
Qed.

Lemma run_ends string :
  forall l l1,
    i l <= length string -> run string l = Returns l1 -> i l1 = length string.
Proof.
  intros l. pattern l. apply (loop_ind string). clear l.
  intros l IH l1 Hle Hrun.
  destruct (Nat.ltb_spec (i l) (length string)) as [Hlt|Hge].
  - rewrite (run_step _ _ Hlt) in Hrun.
    destruct (body string l) as [l'| |] eqn:Hb; cbn [bind] in Hrun;
      try discriminate.
    destruct (body_rank _ _ _ Hlt Hb) as (_ & Hi & _).
    apply (IH l' Hlt eq_refl); [lia | exact Hrun].
  - rewrite (run_done _ _ Hge) in Hrun. injection Hrun as <-. lia.
Qed.

(** ** Scanning a string whose head is a scanned string followed by white space *)

Section Prefix.

Variables (s1 s2 : str) (w : char).
Hypothesis w_space : isspace w = true.

Lemma prev_bs_prefix k :
  k <= length s1 -> prev_bs (s1 ++ w :: s2) k = prev_bs s1 k.
Proof.
  intros Hk. unfold prev_bs. destruct k as [|j]; [reflexivity|].
  rewrite nth_error_app1 by lia. reflexivity.
Qed.

Lemma next_nonspace_prefix k :
  k < length s1 -> next_nonspace (s1 ++ w :: s2) k = next_nonspace s1 k.
Proof.
  intros Hk. unfold next_nonspace.
  destruct (Nat.eq_dec (k + 1) (length s1)) as [E|E].
  - rewrite nth_error_app2 by lia. rewrite E, Nat.sub_diag. cbn [nth_error].
    rewrite w_space.
    replace (nth_error s1 (length s1)) with (@None N)
      by (symmetry; apply nth_error_None; lia).
    reflexivity.
  - rewrite nth_error_app1 by lia. reflexivity.
Qed.

Lemma pending_prefix l :
  i l <= length s1 -> pending (s1 ++ w :: s2) l = pending s1 l.
Proof.
  intros Hi. unfold pending. destruct (begin_word l) as [b|]; [|reflexivity].
  rewrite !_make_word_decode, slice_app_l by lia. reflexivity.
Qed.

Lemma body_prefix l :
  i l < length s1 -> body (s1 ++ w :: s2) l = body s1 l.
Proof.
  intros Hi. destruct (char_at s1 (i l) Hi) as [c Hc].
  rewrite (body_eq s1 l c Hc).
  rewrite (body_eq (s1 ++ w :: s2) l c)
    by (rewrite nth_error_app1 by lia; exact Hc).
  rewrite prev_bs_prefix, next_nonspace_prefix, pending_prefix by lia.
  reflexivity.
Qed.

Lemma run_prefix :
  forall l,
    i l <= length s1 ->
    run (s1 ++ w :: s2) l = (l1 <- run s1 l ;; run (s1 ++ w :: s2) l1).
Proof.
  intros l. pattern l. apply (loop_ind s1). clear l.
  intros l IH Hle.
  destruct (Nat.eq_dec (i l) (length s1)) as [E|E].
  - rewrite (run_done s1 l) by lia. reflexivity.
  - assert (Hlt : i l < length s1) by lia.
    rewrite (run_step s1 l Hlt).
    rewrite (run_step (s1 ++ w :: s2) l)
      by (rewrite length_app; lia).
    rewrite (body_prefix l Hlt).
    destruct (body s1 l) as [l'| |] eqn:Hb; cbn [bind]; try reflexivity.
    destruct (body_rank _ _ _ Hlt Hb) as (_ & Hi & _).
    apply (IH l' Hlt eq_refl). lia.
Qed.

(** A failure of the scan of [s1] is a failure of the longer scan. *)
Lemma run_prefix_raises e :
  run s1 initial = Raises e -> split (s1 ++ w :: s2) = Raises e.
Proof.
  intros H. unfold split. fold (run (s1 ++ w :: s2) initial).
  rewrite run_prefix by (cbn; lia). rewrite H. reflexivity.
Qed.

(** Where the scan of [s1] ends in SPACE or in a word, the longer scan
    goes on in SPACE after [w], the word collected if it decodes. *)
Lemma run_glue l1 :
  run s1 initial = Returns l1 ->
  state l1 <> QUOTES ->
  run (s1 ++ w :: s2) initial =
  (r1 <- finish s1 l1 ;;
   run (s1 ++ w :: s2) (Locals SPACE (length s1 + 1) None r1)).
Proof.
  intros Hrun Hq.
  rewrite run_prefix by (cbn; lia). rewrite Hrun. cbn [bind].
  destruct (run_top s1 initial 0 l1 (top_first s1) Hrun) as [e Htop].
  apply top_of_loop_inv in Htop. destruct Htop as (Hrange & Hinv).
  pose proof (run_ends s1 initial l1 (Nat.le_0_l _) Hrun) as Hend.
  assert (Hw : nth_error (s1 ++ w :: s2) (i l1) = Some w).
  { rewrite nth_error_app2 by lia. rewrite Hend, Nat.sub_diag. reflexivity. }
  assert (Hlen : i l1 < length (s1 ++ w :: s2))
    by (rewrite length_app; cbn [length]; lia).
  assert (Hspace :
    forall res,
      run (s1 ++ w :: s2) (Locals SPACE (length s1) None res) =
      run (s1 ++ w :: s2) (Locals SPACE (length s1 + 1) None res)).
  { intros res. rewrite run_step by (cbn [i]; lia).
    rewrite (body_eq _ _ w) by (cbn [i]; rewrite <- Hend; exact Hw).
    unfold body_of. cbn [state i begin_word result].
    rewrite (isspace_not_quote w w_space), w_space. reflexivity. }
  rewrite (run_step _ _ Hlen), (body_eq _ _ w Hw).
  unfold finish, body_of. rewrite (pending_prefix l1) by lia.
  destruct l1 as [st k bw res]. cbn [state i begin_word result] in *.
  subst k. unfold pending. cbn [begin_word i].
  destruct st; [| destruct bw as [b|] | contradiction].
  - destruct bw; [contradiction|].
    rewrite (isspace_not_quote w w_space), w_space. cbn [negb bind].
    reflexivity.
  - rewrite w_space.
    destruct (_make_word s1 b (length s1)); cbn [bind]; try reflexivity.
    apply Hspace.
  - destruct Hinv as (_ & c & Hc & _).
    rewrite (proj2 (nth_error_None s1 (length s1)) (le_n _)) in Hc.
    discriminate.
Qed.

End Prefix.

(** ** Scanning what follows a prefix that ends outside any token *)

Section Suffix.

Variables (p s : str).
Hypothesis p_end : prev_bs p (length p) = false.

Lemma prev_bs_suffix k : prev_bs (p ++ s) (length p + k) = prev_bs s k.
Proof.
  destruct k as [|j].
  - rewrite Nat.add_0_r. change (prev_bs s 0) with false.
    rewrite <- p_end. unfold prev_bs.
    destruct (length p) as [|n] eqn:E; [reflexivity|].
    rewrite nth_error_app1 by lia. reflexivity.
  - replace (length p + S j) with (S (length p + j)) by lia.
    cbn [prev_bs]. rewrite nth_error_app2 by lia.
    replace (length p + j - length p) with j by lia. reflexivity.
Qed.

Lemma next_nonspace_suffix k :
  next_nonspace (p ++ s) (length p + k) = next_nonspace s k.
Proof.
  unfold next_nonspace. rewrite nth_error_app2 by lia.
  replace (length p + k + 1 - length p) with (k + 1) by lia. reflexivity.
Qed.

Lemma pending_suffix done l :
  pending (p ++ s) (lift (length p) done l) =
  map_outcome (fun word => word) (length p) (pending s l).
Proof.
  unfold pending, lift. cbn [begin_word i].
  destruct (begin_word l) as [b|]; cbn [option_map]; [|reflexivity].
  rewrite !_make_word_decode, slice_app_r. apply decode_shift.
Qed.

Lemma body_of_lift done c pb n mw l :
  body_of c pb n (map_outcome (fun word => word) (length p) mw)
          (lift (length p) done l) =
  map_outcome (lift (length p) done) (length p) (body_of c pb n mw l).
Proof.
  destruct l as [st k bw res]. unfold body_of, lift.
  cbn [state i begin_word result].
  assert (E1 : length p + k + 1 = length p + (k + 1)) by lia.
  destruct mw as [word|e|];
    (destruct st; [|destruct bw as [b|] | destruct bw as [b|]]);
    cbn [option_map bind map_outcome];
    repeat match goal with
           | |- context [if ?b then _ else _] => destruct b
           end;
    cbn [option_map bind map_outcome shift_exn shift_message
         state i begin_word result];
    rewrite ?E1, ?app_assoc; reflexivity.
Qed.

Lemma body_suffix done l :
  i l < length s ->
  body (p ++ s) (lift (length p) done l) =
  map_outcome (lift (length p) done) (length p) (body s l).
Proof.
  intros Hi. destruct (char_at s (i l) Hi) as [c Hc].
  rewrite (body_eq s l c Hc).
  rewrite (body_eq (p ++ s) (lift (length p) done l) c).
  2:{ cbn [lift i]. rewrite nth_error_app2 by lia.
      replace (length p + i l - length p) with (i l) by lia. exact Hc. }
  rewrite pending_suffix. cbn [lift i].
  rewrite prev_bs_suffix, next_nonspace_suffix.
  apply body_of_lift.
Qed.

Lemma run_suffix done :
  forall l,
    run (p ++ s) (lift (length p) done l) =
    map_outcome (lift (length p) done) (length p) (run s l).
Proof.
  intros l. pattern l. apply (loop_ind s). clear l.
  intros l IH.
  destruct (Nat.ltb_spec (i l) (length s)) as [Hlt|Hge].
  - rewrite (run_step s l Hlt).
    rewrite (run_step (p ++ s))
      by (cbn [lift i]; rewrite length_app; lia).
    rewrite (body_suffix done l Hlt).
    destruct (body s l) as [l'| |] eqn:Hb; cbn [bind map_outcome];
      try reflexivity.
    apply (IH l' Hlt eq_refl).
  - rewrite (run_done s l Hge). cbn [map_outcome].
    apply run_done. cbn [lift i]. rewrite length_app. lia.
Qed.

Lemma finish_suffix done l :
  finish (p ++ s) (lift (length p) done l) =
  map_outcome (app done) (length p) (finish s l).
Proof.
  pose proof (pending_suffix done l) as Hp.
  unfold finish, pending in *. destruct l as [st k bw res].
  unfold lift in *. cbn [state i begin_word result] in *.
  destruct st; try reflexivity;
    (destruct bw as [b|]; cbn [option_map] in *; [|reflexivity];
     rewrite Hp; destruct (_make_word s b k);
     cbn [bind map_outcome]; rewrite ?app_assoc; reflexivity).
Qed.

(** Once the scan of [p ++ s] stands in SPACE at the head of [s], it goes
    on as a scan of [s] alone, its positions moved by [length p]. *)
Lemma split_suffix done :
  run (p ++ s) initial = run (p ++ s) (Locals SPACE (length p) None done) ->
  split (p ++ s) = map_outcome (app done) (length p) (split s).
Proof.
  intros H. unfold split. fold (run (p ++ s) initial) (run s initial).
  rewrite H.
  replace (Locals SPACE (length p) None done)
    with (lift (length p) done initial)
    by (unfold lift, initial; cbn [state i begin_word result option_map];
        now rewrite Nat.add_0_r, app_nil_r).
  rewrite run_suffix.
  destruct (run s initial) as [l| |]; cbn [bind map_outcome];
    try reflexivity.
  apply finish_suffix.
Qed.

End Suffix.

(** ** What a scan can end in *)

Lemma body_cases string l :
  i l < length string ->
  (exists l', body string l = Returns l') \/
  (exists e, body string l = Raises e /\ raised_in_body e).
Proof.
  intros Hlt. destruct (char_at string (i l) Hlt) as [c Hc].
  rewrite (body_eq _ _ _ Hc).
  destruct (pending_cases string l) as [[word ->]|[e [-> He]]];
    apply raised_in_make_word_body in He || idtac;
    unfold body_of;
    (destruct (state l); [|destruct (begin_word l) | destruct (begin_word l)]);
    cbn [bind];
    repeat match goal with
           | |- context [if ?b then _ else _] => destruct b
           end;
    try (left; eexists; reflexivity);
    right; eexists; (split; [reflexivity | first [exact I | exact He]]).
Qed.

Lemma run_cases string :
  forall l,
    (exists l1, run string l = Returns l1) \/
    (exists e, run string l = Raises e /\ raised_in_body e).
Proof.
  intros l. pattern l. apply (loop_ind string). clear l.
  intros l IH.
  destruct (Nat.ltb_spec (i l) (length string)) as [Hlt|Hge].
  - rewrite (run_step _ _ Hlt).
    destruct (body_cases string l Hlt) as [[l' Hb]|[e [Hb He]]];
      rewrite Hb; cbn [bind].
    + apply (IH l' Hlt Hb).
    + right. eauto.
  - rewrite (run_done _ _ Hge). left. eauto.
Qed.

Lemma raised_in_make_word_kind e : raised_in_make_word e -> kind_of e <> None.
Proof.
  destruct e as [m|m|m|]; try contradiction.
  destruct m; cbn; try contradiction; discriminate.
Qed.

Lemma finish_cases string l :
  (exists r, finish string l = Returns r) \/
  (exists e, finish string l = Raises e /\ kind_of e <> None).
Proof.
  pose proof (pending_cases string l) as Hp.
  unfold finish, pending in *.
  destruct (state l).
  1,2: destruct (begin_word l) as [b|]; [|left; eauto];
       destruct Hp as [[word ->]|[e [-> He]]]; cbn [bind]; [left; eauto|];
       right; eexists; split; [reflexivity|];
       now apply raised_in_make_word_kind.
  right. eexists. split; [reflexivity | discriminate].
Qed.

Lemma raised_in_body_kind e : raised_in_body e -> kind_of e <> None.
Proof.
  destruct e as [m|m|m|]; try contradiction;
    destruct m; cbn; try contradiction; discriminate.
Qed.

(** [split] returns, or raises an exception of one of the five kinds. *)
Lemma split_cases string :
  (exists r, split string = Returns r) \/
  (exists e, split string = Raises e /\ kind_of e <> None).
Proof.
  unfold split. fold (run string initial).
  destruct (run_cases string initial) as [[l1 ->]|[e [-> He]]]; cbn [bind].
  - apply finish_cases.
  - right. exists e. split; [reflexivity | now apply raised_in_body_kind].
Qed.

(** ** Composition *)

Lemma prev_bs_after_space (s1 : str) w :
  isspace w = true -> prev_bs (s1 ++ [w]) (length (s1 ++ [w])) = false.
Proof.
  intros Hw. rewrite length_app. cbn [length].
  replace (length s1 + 1) with (S (length s1)) by lia. cbn [prev_bs].
  rewrite nth_error_app2 by lia. rewrite Nat.sub_diag. cbn [nth_error].
  now apply isspace_not_backslash.
Qed.

Lemma app_cons_assoc (s1 : str) w s2 : s1 ++ w :: s2 = (s1 ++ [w]) ++ s2.
Proof.
  now rewrite <- app_assoc.
Qed.

(** A string that scans, white space, and a second string: the words of
    the first, then the outcome of the second. *)
Lemma split_words (s1 s2 : str) w r1 :
  isspace w = true ->
  split s1 = Returns r1 ->
  split (s1 ++ w :: s2) = map_outcome (app r1) (length s1 + 1) (split s2).
Proof.
  intros Hw Hs1. unfold split in Hs1. fold (run s1 initial) in Hs1.
  destruct (run s1 initial) as [l1| |] eqn:Hrun; cbn [bind] in Hs1;
    try discriminate.
  assert (Hq : state l1 <> QUOTES).
  { intros E. unfold finish in Hs1. rewrite E in Hs1. discriminate. }
  pose proof (run_glue s1 s2 w Hw l1 Hrun Hq) as Hglue.
  rewrite Hs1 in Hglue. cbn [bind] in Hglue.
  rewrite app_cons_assoc in *.
  replace (length s1 + 1) with (length (s1 ++ [w])) in *
    by (rewrite length_app; reflexivity).
  apply split_suffix; [now apply prev_bs_after_space | exact Hglue].
Qed.

Lemma split_words_raises (s1 s2 : str) w e :
  isspace w = true ->
  split s1 = Raises e ->
  e <> QuoteError QuoteNotClosed ->
  split (s1 ++ w :: s2) = Raises e.
Proof.
  intros Hw Hs1 He. unfold split in Hs1. fold (run s1 initial) in Hs1.
  destruct (run s1 initial) as [l1|e'|] eqn:Hrun; cbn [bind] in Hs1;
    try discriminate.
  - assert (Hq : state l1 <> QUOTES).
    { intros E. unfold finish in Hs1. rewrite E in Hs1. congruence. }
    unfold split. fold (run (s1 ++ w :: s2) initial).
    rewrite (run_glue s1 s2 w Hw l1 Hrun Hq), Hs1. reflexivity.
  - injection Hs1 as ->. now apply run_prefix_raises.
Qed.

Lemma exn_eq_QuoteNotClosed e :
  e = QuoteError QuoteNotClosed \/ e <> QuoteError QuoteNotClosed.
Proof.
  destruct e as [m|m|m|]; try (right; discriminate).
  destruct m; try (right; discriminate). now left.
Qed.

(** ** White space *)

Lemma whitespace_end ws : whitespace ws -> prev_bs ws (length ws) = false.
Proof.
  intros H. destruct ws as [|c ws] using rev_ind; [reflexivity|].
  apply Forall_app in H. destruct H as [_ H]. inversion H; subst.
  now apply prev_bs_after_space.
Qed.

Lemma skip_spaces ws :
  whitespace ws ->
  forall (pre s : str) res,
    run (pre ++ ws ++ s) (Locals SPACE (length pre) None res) =
    run (pre ++ ws ++ s) (Locals SPACE (length pre + length ws) None res).
Proof.
  induction 1 as [|c ws Hc Hws IH]; intros pre s res.
  - cbn [length]. now rewrite Nat.add_0_r.
  - cbn [app length].
    rewrite run_step by (cbn [i]; rewrite length_app; cbn [length]; lia).
    rewrite (body_eq _ _ c)
      by (cbn [i]; rewrite nth_error_app2 by lia;
          rewrite Nat.sub_diag; reflexivity).
    unfold body_of. cbn [state i begin_word result bind].
    rewrite (isspace_not_quote c Hc), Hc. cbn [negb bind].
    rewrite app_cons_assoc.
    replace (length pre + 1) with (length (pre ++ [c]))
      by (rewrite length_app; reflexivity).
    rewrite IH. rewrite length_app. cbn [length].
    do 2 f_equal. lia.
Qed.

(** White space in front moves the positions and nothing else. *)
Lemma split_leading ws (s : str) :
  whitespace ws ->
  split (ws ++ s) = map_outcome (fun r => r) (length ws) (split s).
Proof.
  intros Hws.
  apply (split_suffix ws s (whitespace_end ws Hws) []).
  apply (skip_spaces ws Hws [] s []).
Qed.

Lemma split_spaces ws : whitespace ws -> split ws = Returns [].
Proof.
  intros Hws. rewrite <- (app_nil_r ws).
  rewrite (split_leading ws [] Hws). reflexivity.
Qed.

(** Inside quotes a run of characters that are no quotes is passed over,
    and the scan ends in QUOTES if nothing else follows. *)
Lemma quotes_to_the_end string :
  forall l,
    state l = QUOTES ->
    (forall k c, i l <= k -> nth_error string k = Some c ->
                 (c =? quote)%N = false) ->
    exists l1, run string l = Returns l1 /\ state l1 = QUOTES.
Proof.
  intros l. pattern l. apply (loop_ind string). clear l.
  intros l IH Hst Hrest.
  destruct (Nat.ltb_spec (i l) (length string)) as [Hlt|Hge].
  - destruct (char_at string (i l) Hlt) as [c Hc].
    pose proof (Hrest (i l) c (le_n _) Hc) as Hq.
    rewrite (run_step _ _ Hlt).
    assert (Hb : exists l', body string l = Returns l' /\
                            state l' = QUOTES /\ i l' = i l + 1).
    { rewrite (body_eq _ _ _ Hc). unfold body_of. rewrite Hst, Hq.
      destruct (begin_word l); cbn [andb]; eexists; repeat split. }
    destruct Hb as (l' & Hb & Hst' & Hi').
    rewrite Hb. cbn [bind]. apply (IH l' Hlt Hb Hst').
    intros k c' Hk. apply Hrest. lia.
  - rewrite (run_done _ _ Hge). eauto.
Qed.

Lemma split_unclosed (s : str) :
  split s = Raises (QuoteError QuoteNotClosed) ->
  exists l1, run s initial = Returns l1 /\ state l1 = QUOTES.
Proof.
  unfold split. fold (run s initial). intros H.
  destruct (run_cases s initial) as [[l1 Hrun]|[e [Hrun He]]];
    rewrite Hrun in H; cbn [bind] in H.
  - exists l1. split; [exact Hrun|].
    pose proof (pending_cases s l1) as Hp. unfold finish, pending in *.
    destruct (state l1); [| |reflexivity];
      (destruct (begin_word l1); [|discriminate];
       destruct Hp as [[word Hp]|[e [Hp He]]]; rewrite Hp in H;
       cbn [bind] in H; [discriminate|];
       injection H as ->; contradiction).
  - injection H as ->. contradiction.
Qed.

(** White space at the end changes nothing. *)
Lemma split_trailing ws (s : str) :
  whitespace ws -> split (s ++ ws) = split s.
Proof.
  intros Hws. destruct Hws as [|w ws Hw Hws]; [now rewrite app_nil_r|].
  destruct (split s) as [r|e|] eqn:Hs.
  - rewrite (split_words s ws w r Hw Hs), (split_spaces ws Hws).
    cbn [map_outcome]. now rewrite app_nil_r.
  - destruct (exn_eq_QuoteNotClosed e) as [->|He].
    + destruct (split_unclosed s Hs) as (l1 & Hrun & Hst).
      pose proof (run_ends s initial l1 (Nat.le_0_l _) Hrun) as Hend.
      unfold split. fold (run (s ++ w :: ws) initial).
      rewrite (run_prefix s ws w Hw) by (cbn; lia). rewrite Hrun. cbn [bind].
      destruct (quotes_to_the_end (s ++ w :: ws) l1 Hst) as (l2 & -> & Hst2).
      * intros k c Hk Hc. rewrite nth_error_app2 in Hc by lia.
        apply nth_error_In in Hc. apply isspace_not_quote.
        assert (Hall : whitespace (w :: ws)) by now constructor.
        unfold whitespace in Hall. rewrite Forall_forall in Hall. auto.
      * cbn [bind]. unfold finish. now rewrite Hst2.
    + now apply split_words_raises.
  - destruct (split_cases s) as [[r H]|[e [H _]]]; congruence.
Qed.

Lemma outline_map (f : list str -> list str) off r :
  outline (map_outcome f off r) =
  option_map (fun x => match x with inl a => inl (f a) | inr k => inr k end)
             (outline r).
Proof.
  destruct r as [a|e|]; [reflexivity| |reflexivity].
  destruct e as [m|m|m|]; try destruct m; reflexivity.
Qed.

(** ** Plain words *)

Lemma word_to_the_end string b :
  forall l,
    state l = WORD ->
    begin_word l = Some b ->
    i l <= length string ->
    (forall k c, i l <= k -> nth_error string k = Some c -> plain c = true) ->
    run string l = Returns (Locals WORD (length string) (Some b) (result l)).
Proof.
  intros l. pattern l. apply (loop_ind string). clear l.
  intros l IH Hst Hbw Hle Hrest.
  destruct (Nat.ltb_spec (i l) (length string)) as [Hlt|Hge].
  - destruct (char_at string (i l) Hlt) as [c Hc].
    destruct (plain_inv c (Hrest (i l) c (le_n _) Hc)) as (Hs & Hq & _).
    rewrite (run_step _ _ Hlt).
    assert (Hb : body string l =
                 Returns (Locals WORD (i l + 1) (Some b) (result l))).
    { rewrite (body_eq _ _ _ Hc). unfold body_of. rewrite Hst, Hbw, Hs, Hq.
      reflexivity. }
    rewrite Hb. cbn [bind].
    apply (IH _ Hlt Hb); cbn [state i begin_word result]; auto; try lia.
    intros k c' Hk. apply Hrest. lia.
  - rewrite (run_done _ _ Hge). destruct l as [st k bw res].
    cbn [state i begin_word result] in *. subst. f_equal. f_equal. lia.
Qed.

Lemma split_plain_word (w : str) :
  w <> [] ->
  Forall (fun c => plain c = true) w ->
  split w = Returns [w].
Proof.
  intros Hne Hw.
  assert (Hall : forall k c, nth_error w k = Some c -> plain c = true).
  { intros k c Hc. rewrite Forall_forall in Hw. apply Hw.
    eapply nth_error_In; eauto. }
  destruct w as [|c w']; [contradiction|]. set (w := c :: w') in *.
  destruct (plain_inv c (Hall 0 c eq_refl)) as (Hs & Hq & _).
  assert (Hlen : 0 < length w) by (cbn; lia).
  unfold split. fold (run w initial).
  rewrite run_step by exact Hlen.
  rewrite (body_eq w initial c eq_refl). unfold body_of.
  cbn [state i begin_word result initial]. rewrite Hq, Hs. cbn [negb bind].
  rewrite run_step by exact Hlen.
  rewrite (body_eq w (Locals WORD 0 None []) c eq_refl). unfold body_of.
  cbn [state i begin_word result]. rewrite Hq, Hs. cbn [orb andb bind].
  rewrite (word_to_the_end w 0); cbn [state i begin_word result]; auto;
    try lia.
  2:{ intros k c' _. apply Hall. }
  cbn [bind]. unfold finish. cbn [state i begin_word result].
  rewrite _make_word_decode, slice_full, decode_plain; [reflexivity|].
  eapply Forall_impl; [|exact Hw]. intros x Hx.
  now destruct (plain_inv x Hx) as (_ & _ & ?).
Qed.

(** ** Each examination has its own rank *)

Lemma examined_ranked string fuel :
  forall l,
    NoDup (examined fuel string l) /\
    length (examined fuel string l) <= fuel /\
    forall p, In p (examined fuel string l) ->
              rank string (state l, i l) <= rank string p.
Proof.
  induction fuel as [|fuel IH]; intros l; cbn [examined].
  - destruct (i l <? length string); cbn; repeat split;
      try constructor; try lia; contradiction.
  - destruct (Nat.ltb_spec (i l) (length string)) as [Hlt|Hge].
    2:{ cbn. repeat split; try constructor; try lia; contradiction. }
    destruct (body string l) as [l'| |] eqn:Hb.
    + destruct (IH l') as (Hnd & Hlen & Hrk).
      destruct (body_rank _ _ _ Hlt Hb) as (Hr & _).
      repeat split.
      * constructor; [|exact Hnd]. intros Hin. apply Hrk in Hin. lia.
      * cbn [length]. lia.
      * intros p [<-|Hin]; [lia|]. apply Hrk in Hin. lia.
    + repeat split.
      * constructor; [intros []|constructor].
      * cbn. lia.
      * intros p [<-|[]]. lia.
    + repeat split.
      * constructor; [intros []|constructor].
      * cbn. lia.
      * intros p [<-|[]]. lia.
Qed.

(** ** [decode] against the Unescaper of the specification *)

Lemma decode_unescape raw :
  forall pos pos',
    option_map forget (observe (decode pos raw)) =
    Some (forget (unescape pos' raw)).
Proof.
  induction raw as [raw IH] using (induction_ltof1 _ (@length N)).
  unfold ltof in IH. intros pos pos'.
  destruct raw as [|c rest]; [reflexivity|].
  cbn [decode unescape]. destruct (c =? backslash)%N.
  - destruct rest as [|d rest]; [reflexivity|].
    rewrite (N.eqb_sym backslash d), (N.eqb_sym quote d).
    destruct (d =? backslash)%N eqn:Eb; cbn [orb].
    + apply N.eqb_eq in Eb. subst d.
      specialize (IH rest (ltac:(cbn [length]; lia)) (pos + 1) (pos' + 2)).
      destruct (decode (pos + 1) rest) as [out|e|];
        destruct (unescape (pos' + 2) rest) as [out'|k];
        cbn in IH |- *; try congruence;
        destruct (kind_of e); cbn in IH |- *; congruence.
    + destruct (d =? quote)%N eqn:Eq; [|reflexivity].
      apply N.eqb_eq in Eq. subst d.
      specialize (IH rest (ltac:(cbn [length]; lia)) (pos + 1) (pos' + 2)).
      destruct (decode (pos + 1) rest) as [out|e|];
        destruct (unescape (pos' + 2) rest) as [out'|k];
        cbn in IH |- *; try congruence;
        destruct (kind_of e); cbn in IH |- *; congruence.
  - specialize (IH rest (ltac:(cbn [length]; lia)) (pos + 1) (pos' + 1)).
    destruct (decode (pos + 1) rest) as [out|e|];
      destruct (unescape (pos' + 1) rest) as [out'|k];
      cbn in IH |- *; try congruence;
      destruct (kind_of e); cbn in IH |- *; congruence.
Qed.

Lemma make_word_returns string b e word :
  _make_word string b e = Returns word ->
  unescape 0 (slice string b e) = inl word.
Proof.
  rewrite _make_word_decode. intros H.
  pose proof (decode_unescape (slice string b e) b 0) as Hd.
  rewrite H in Hd. cbn in Hd.
  destruct (unescape 0 (slice string b e)); cbn in Hd; congruence.
Qed.

(** [_make_word] succeeds exactly when the Unescaper does, with the same
    word, and fails exactly when it does, with an error of the same kind. *)
Lemma make_word_unescape_cases string b e :
  match unescape b (slice string b e) with
  | inl word => _make_word string b e = Returns word
  | inr kind =>
    exists ex,
      _make_word string b e = Raises ex /\
      option_map forget_pos (kind_of ex) = Some (forget_pos kind)
  end.
Proof.
  rewrite _make_word_decode.
  pose proof (decode_unescape (slice string b e) b b) as H.
  destruct (decode b (slice string b e)) as [w|ex|]; cbn in H.
  - destruct (unescape b (slice string b e)); cbn in H; congruence.
  - destruct (kind_of ex) as [k0|] eqn:Ek; cbn in H; [|discriminate].
    destruct (unescape b (slice string b e)) as [w|kind]; cbn in H;
      [discriminate|].
    exists ex. split; [reflexivity|]. rewrite Ek. cbn. congruence.
  - discriminate.
Qed.

(** The position [decode] reports falls short of the offset in [raw] by
    one for every pair decoded before. *)
Lemma decode_drift raw :
  forall pos pos',
    match decode pos raw, unescape pos' raw with
    | Returns w, inl w' => w = w'
    | Raises (EscapeError (CannotEscape c k)), inr (IllegalEscape c' k') =>
      c = c' /\ k + collapsed raw + pos' = k' + pos
    | Raises (EscapeError (InvalidBackslash k)), inr (DanglingEscape k') =>
      k + collapsed raw + pos' = k' + pos
    | _, _ => False
    end.
Proof.
  induction raw as [raw IH] using (induction_ltof1 _ (@length N)).
  unfold ltof in IH. intros pos pos'.
  destruct raw as [|c rest]; [reflexivity|].
  cbn [decode unescape collapsed]. destruct (c =? backslash)%N.
  - destruct rest as [|d rest]; [lia|].
    rewrite (N.eqb_sym backslash d), (N.eqb_sym quote d).
    destruct (d =? backslash)%N eqn:Eb; cbn [orb].
    + apply N.eqb_eq in Eb. subst d.
      specialize (IH rest (ltac:(cbn [length]; lia)) (pos + 1) (pos' + 2)).
      destruct (decode (pos + 1) rest) as [out|[m|m|m|]|];
        destruct (unescape (pos' + 2) rest) as [out'|k];
        cbn [bind]; try contradiction; try congruence.
      destruct m, k; try contradiction; intuition lia.
    + destruct (d =? quote)%N eqn:Eq; [|split; [reflexivity|lia]].
      apply N.eqb_eq in Eq. subst d.
      specialize (IH rest (ltac:(cbn [length]; lia)) (pos + 1) (pos' + 2)).
      destruct (decode (pos + 1) rest) as [out|[m|m|m|]|];
        destruct (unescape (pos' + 2) rest) as [out'|k];
        cbn [bind]; try contradiction; try congruence.
      destruct m, k; try contradiction; intuition lia.
  - specialize (IH rest (ltac:(cbn [length]; lia)) (pos + 1) (pos' + 1)).
    destruct (decode (pos + 1) rest) as [out|[m|m|m|]|];
      destruct (unescape (pos' + 1) rest) as [out'|k];
      cbn [bind]; try contradiction; try congruence.
    destruct m, k; try contradiction; intuition lia.
Qed.

(** The position the Unescaper reports is that of the offending
    character. *)
Lemma unescape_position raw :
  forall pos,
    match unescape pos raw with
    | inl _ => True
    | inr (IllegalEscape c k) =>
      pos < k /\ nth_error raw (k - pos) = Some c /\
      nth_error raw (k - pos - 1) = Some backslash
    | inr (DanglingEscape k) =>
      pos <= k /\ nth_error raw (k - pos) = Some backslash /\
      k - pos + 1 = length raw
    | inr _ => False
    end.
Proof.
  induction raw as [raw IH] using (induction_ltof1 _ (@length N)).
  unfold ltof in IH. intros pos.
  destruct raw as [|c rest]; [exact I|].
  cbn [unescape]. destruct (c =? backslash)%N eqn:Ec.
  - apply N.eqb_eq in Ec. subst c.
    destruct rest as [|d rest].
    + rewrite Nat.sub_diag. cbn. repeat split; lia.
    + destruct ((d =? backslash)%N || (d =? quote)%N).
      * specialize (IH rest (ltac:(cbn [length]; lia)) (pos + 2)).
        destruct (unescape (pos + 2) rest) as [out|k]; [exact I|].
        destruct k as [| | |c' k|k]; try contradiction.
        -- destruct IH as (Hlt & Hc & Hb).
           replace (k - pos) with (S (S (k - (pos + 2)))) by lia.
           replace (S (S (k - (pos + 2))) - 1) with (S (S (k - (pos + 2) - 1)))
             by lia.
           cbn [nth_error]. repeat split; auto; lia.
        -- destruct IH as (Hle & Hb & Hlen).
           replace (k - pos) with (S (S (k - (pos + 2)))) by lia.
           cbn [nth_error length]. repeat split; auto; lia.
      * replace (pos + 1 - pos) with 1 by lia. cbn. repeat split; lia.
  - specialize (IH rest (ltac:(cbn [length]; lia)) (pos + 1)).
    destruct (unescape (pos + 1) rest) as [out|k]; [exact I|].
    destruct k as [| | |c' k|k]; try contradiction.
    + destruct IH as (Hlt & Hc & Hb).
      replace (k - pos) with (S (k - (pos + 1))) by lia.
      replace (S (k - (pos + 1)) - 1) with (S (k - (pos + 1) - 1)) by lia.
      cbn [nth_error]. repeat split; auto; lia.
    + destruct IH as (Hle & Hb & Hlen).
      replace (k - pos) with (S (k - (pos + 1))) by lia.
      cbn [nth_error length]. repeat split; auto; lia.
Qed.

(** * Main results *)

(** C1 (what the code does): the position [_make_word] reports is the
    absolute offset of the offending character, as the Unescaper of the
    specification reports it, less one for every escape pair collapsed
    earlier in the word.  On the word a, backslash, backslash, backslash, q
    the character that cannot be escaped is the q at offset 4 of the input,
    and [split] reports index 3, where a backslash stands; a lone backslash
    after a pair, at offset 2, is reported at index 1. *)
Theorem escape_position_after_collapsed_pair string b e :
  let s := lit "a" ++ [backslash; backslash; backslash] ++ lit "q" in
  let t := [backslash; backslash; backslash] in
  match _make_word string b e, unescape b (slice string b e) with
  | Returns w, inl w' => w = w'
  | Raises (EscapeError (CannotEscape c k)), inr (IllegalEscape c' k') =>
    c = c' /\ k + collapsed (slice string b e) = k'
  | Raises (EscapeError (InvalidBackslash k)), inr (DanglingEscape k') =>
    k + collapsed (slice string b e) = k'
  | _, _ => False
  end /\
  split s = Raises (EscapeError (CannotEscape 113%N 3)) /\
  nth_error s 4 = Some 113%N /\
  nth_error s 3 = Some backslash /\
  unescape 0 (slice s 0 (length s)) = inr (IllegalEscape 113%N 4) /\
  split t = Raises (EscapeError (InvalidBackslash 1)) /\
  unescape 0 (slice t 0 (length t)) = inr (DanglingEscape 2).
Proof.
  cbv zeta. split; [|repeat split; vm_compute; reflexivity].
  rewrite _make_word_decode.
  pose proof (decode_drift (slice string b e) b b) as H.
  destruct (decode b (slice string b e)) as [w|[m|m|m|]|];
    destruct (unescape b (slice string b e)) as [w'|k]; auto.
  destruct m, k; auto; intuition lia.
Qed.

(** C2: each of the five malformed inputs of the specification makes
    [split] raise the exception of its own kind (unterminated quote, quote
    in a word, no space after a quote, illegal escape of q at index 5,
    dangling escape at index 19), and the five outcomes are pairwise
    different. *)
Theorem split_error_kinds :
  let unterminated := split (lit "the quick " ++ [quote] ++ lit "brown fox") in
  let in_word := split (lit "the qu" ++ [quote] ++ lit "ck brown fox") in
  let no_space :=
    split (lit "the quick " ++ [quote] ++ lit "brown" ++ [quote] ++ lit "fox") in
  let illegal := split (lit "the " ++ [backslash] ++ lit "quick brown fox") in
  let dangling := split (lit "the quick brown fox" ++ [backslash]) in
  unterminated = Raises (QuoteError QuoteNotClosed) /\
  in_word = Raises (InvalidAcceptError (ExpectedWordChar quote 6)) /\
  no_space = Raises (QuoteError SpaceMustFollowQuotes) /\
  illegal = Raises (EscapeError (CannotEscape 113%N 5)) /\
  dangling = Raises (EscapeError (InvalidBackslash 19)) /\
  observe unterminated = Some (inr UnterminatedQuote) /\
  observe in_word = Some (inr UnexpectedQuoteInWord) /\
  observe no_space = Some (inr MissingSpaceAfterQuote) /\
  observe illegal = Some (inr (IllegalEscape 113%N 5)) /\
  observe dangling = Some (inr (DanglingEscape 19)) /\
  NoDup [outline unterminated; outline in_word; outline no_space;
         outline illegal; outline dangling].
Proof.
  cbv zeta. repeat split; try (vm_compute; reflexivity).
  vm_compute.
  repeat (constructor; [cbn [In]; intuition discriminate|]).
  constructor.
Qed.

(** C3: on every slice [_make_word] does what the Unescaper of the
    specification does (backslash-backslash gives one backslash,
    backslash-quote one quote, a backslash before anything else is an
    illegal escape, a last backslash a dangling escape, other characters
    are copied), positions left aside; and whatever a step of the loop, in
    WORD as in QUOTES, or the end of [split] adds to the result is the
    decoding of the pending span (of the empty slice for an empty quoted
    token).  The transform is applied alike to bare words and to quoted
    bodies: where a bare word ends, at white space or at the end of the
    input, and where a quoted body ends, at a quote that follows no
    backslash, the step appends the word the Unescaper gives for the span
    if it gives one, and raises an error of the kind the Unescaper gives
    otherwise; everywhere else the step appends nothing. *)
Theorem make_word_is_unescape string b e :
  option_map forget (observe (_make_word string b e)) =
    Some (forget (unescape b (slice string b e))) /\
  (forall l l',
      i l < length string ->
      body string l = Returns l' ->
      result l' = result l \/
      exists raw word,
        (raw = [] \/ exists b', begin_word l = Some b' /\
                                raw = slice string b' (i l)) /\
        unescape 0 raw = inl word /\
        result l' = result l ++ [word]) /\
  (forall l r,
      finish string l = Returns r ->
      r = result l \/
      exists b' word,
        begin_word l = Some b' /\
        unescape 0 (slice string b' (i l)) = inl word /\
        r = result l ++ [word]) /\
  (forall k b res c,
      nth_error string k = Some c -> isspace c = true ->
      match unescape b (slice string b k) with
      | inl word =>
        _process_word_state string k (Some b) res =
          Returns (SPACE, k, None, res ++ [word])
      | inr kind =>
        exists ex,
          _process_word_state string k (Some b) res = Raises ex /\
          option_map forget_pos (kind_of ex) = Some (forget_pos kind)
      end) /\
  (forall k b res,
      nth_error string k = Some quote -> prev_bs string k = false ->
      match unescape b (slice string b k) with
      | inl word =>
        _process_quote_state string k (Some b) res =
          (if next_nonspace string k
           then Raises (QuoteError SpaceMustFollowQuotes)
           else Returns (SPACE, k + 1, None, res ++ [word]))
      | inr kind =>
        exists ex,
          _process_quote_state string k (Some b) res = Raises ex /\
          option_map forget_pos (kind_of ex) = Some (forget_pos kind)
      end) /\
  (forall k res,
      nth_error string k = Some quote ->
      unescape k (slice string k k) = inl [] /\
      _process_quote_state string k None res =
        (if next_nonspace string k
         then Raises (QuoteError SpaceMustFollowQuotes)
         else Returns (SPACE, k + 1, None, res ++ [[]]))) /\
  (forall l b,
      state l = WORD -> begin_word l = Some b ->
      match unescape b (slice string b (i l)) with
      | inl word => finish string l = Returns (result l ++ [word])
      | inr kind =>
        exists ex,
          finish string l = Raises ex /\
          option_map forget_pos (kind_of ex) = Some (forget_pos kind)
      end) /\
  (forall k b res c r,
      nth_error string k = Some c -> isspace c = false ->
      _process_word_state string k (Some b) res = Returns r ->
      r = (WORD, k + 1, Some b, res)) /\
  (forall k b res c,
      nth_error string k = Some c ->
      (c =? quote)%N && negb (prev_bs string k) = false ->
      _process_quote_state string k (Some b) res =
        Returns (QUOTES, k + 1, Some b, res)) /\
  (forall k res c,
      nth_error string k = Some c -> c <> quote ->
      _process_quote_state string k None res =
        Returns (QUOTES, k + 1, Some k, res)).
Proof.
  split; [|split; [|split; [|split; [|split; [|split; [|split; [|split; [|split]]]]]]]].
  - rewrite _make_word_decode. apply decode_unescape.
  - intros l l' Hlt Hb.
    destruct (char_at string (i l) Hlt) as [c Hc].
    rewrite (body_eq _ _ _ Hc) in Hb.
    unfold body_of, pending in Hb. destruct (state l).
    + left. repeat match type of Hb with
                   | context [if ?x then _ else _] => destruct x
                   end; injection Hb as <-; reflexivity.
    + destruct (begin_word l) as [b'|] eqn:Hbw.
      * destruct (isspace c).
        -- destruct (_make_word string b' (i l)) as [word| |] eqn:Hp;
             cbn [bind] in Hb; try discriminate.
           injection Hb as <-. right. exists (slice string b' (i l)), word.
           apply make_word_returns in Hp. repeat split; eauto.
        -- left. destruct ((c =? quote)%N && negb (prev_bs string (i l)));
             [discriminate|]. injection Hb as <-. reflexivity.
      * left.
        destruct (isspace c || (c =? quote)%N && negb (prev_bs string (i l)));
          [discriminate|]. injection Hb as <-. reflexivity.
    + destruct (begin_word l) as [b'|] eqn:Hbw.
      * destruct ((c =? quote)%N && negb (prev_bs string (i l))).
        -- destruct (_make_word string b' (i l)) as [word| |] eqn:Hp;
             cbn [bind] in Hb; try discriminate.
           destruct (next_nonspace string (i l)); [discriminate|].
           injection Hb as <-. right. exists (slice string b' (i l)), word.
           apply make_word_returns in Hp. repeat split; eauto.
        -- left. injection Hb as <-. reflexivity.
      * destruct (c =? quote)%N.
        -- destruct (next_nonspace string (i l)); [discriminate|].
           injection Hb as <-. right. exists [], []. repeat split; auto.
        -- left. injection Hb as <-. reflexivity.
  - intros l r Hf. unfold finish in Hf.
    destruct (state l); try discriminate;
      (destruct (begin_word l) as [b'|];
       [|left; now injection Hf as <-];
       destruct (_make_word string b' (i l)) as [word| |] eqn:Hp;
       cbn [bind] in Hf; try discriminate;
       injection Hf as <-; right; exists b', word;
       apply make_word_returns in Hp; auto).
  - intros k b' res c Hc Hs.
    pose proof (make_word_unescape_cases string b' k) as Hmw.
    unfold _process_word_state. rewrite (index_at _ _ _ Hc). cbn [bind].
    rewrite Hs.
    destruct (unescape b' (slice string b' k)) as [word|kind].
    + rewrite Hmw. reflexivity.
    + destruct Hmw as (ex & Hex & Hk). exists ex. rewrite Hex. auto.
  - intros k b' res Hc Hp.
    assert (Hlt : k < length string)
      by (apply nth_error_Some; rewrite Hc; discriminate).
    pose proof (make_word_unescape_cases string b' k) as Hmw.
    unfold _process_quote_state.
    rewrite (index_at _ _ _ Hc), (preceded_by_backslash_eq _ _ Hlt),
      followed_by_nonspace_eq.
    cbn [bind]. rewrite N.eqb_refl. cbn [bind]. rewrite Hp. cbn [negb].
    destruct (unescape b' (slice string b' k)) as [word|kind].
    + rewrite Hmw. cbn [bind].
      destruct (next_nonspace string k); reflexivity.
    + destruct Hmw as (ex & Hex & Hk). exists ex. rewrite Hex. auto.
  - intros k res Hc.
    split; [unfold slice; rewrite Nat.sub_diag; reflexivity|].
    unfold _process_quote_state.
    rewrite (index_at _ _ _ Hc), followed_by_nonspace_eq.
    cbn [bind]. rewrite N.eqb_refl.
    destruct (next_nonspace string k); reflexivity.
  - intros l b' Hst Hbw.
    pose proof (make_word_unescape_cases string b' (i l)) as Hmw.
    unfold finish. rewrite Hst, Hbw.
    destruct (unescape b' (slice string b' (i l))) as [word|kind].
    + rewrite Hmw. reflexivity.
    + destruct Hmw as (ex & Hex & Hk). exists ex. rewrite Hex. auto.
  - intros k b' res c r Hc Hs.
    unfold _process_word_state, _accept_word_char.
    rewrite (index_at _ _ _ Hc). cbn [bind]. rewrite ?Hs. cbn [bind].
    rewrite ?Hs.
    destruct (c =? quote)%N; cbn [bind].
    + destruct (preceded_by_backslash string k) as [[|]| |]; cbn [bind negb];
        try discriminate.
      now intros [= <-].
    + now intros [= <-].
  - intros k b' res c Hc Hpass.
    assert (Hlt : k < length string)
      by (apply nth_error_Some; rewrite Hc; discriminate).
    unfold _process_quote_state.
    rewrite (index_at _ _ _ Hc), (preceded_by_backslash_eq _ _ Hlt).
    cbn [bind]. destruct (c =? quote)%N; cbn [bind andb] in *.
    + rewrite Hpass. reflexivity.
    + reflexivity.
  - intros k res c Hc Hq. apply N.eqb_neq in Hq.
    unfold _process_quote_state. rewrite (index_at _ _ _ Hc). cbn [bind].
    rewrite Hq. reflexivity.
Qed.

Lemma make_word_is_unescape_witness :
  let s := lit "a b" in
  let l := Locals WORD 1 (Some 0) [] in
  let t := [quote] ++ lit "a" ++ [backslash; quote; quote] in
  (i l < length s /\
   body s l = Returns (Locals SPACE 1 None [lit "a"]) /\
   (result (Locals SPACE 1 None [lit "a"]) = result l \/
    exists raw word,
      (raw = [] \/ exists b', begin_word l = Some b' /\ raw = slice s b' (i l)) /\
      unescape 0 raw = inl word /\
      result (Locals SPACE 1 None [lit "a"]) = result l ++ [word])) /\
  (nth_error t 4 = Some quote /\ prev_bs t 4 = false /\
   match unescape 1 (slice t 1 4) with
   | inl word =>
     _process_quote_state t 4 (Some 1) [] =
       (if next_nonspace t 4
        then Raises (QuoteError SpaceMustFollowQuotes)
        else Returns (SPACE, 4 + 1, None, [] ++ [word]))
   | inr kind =>
     exists ex,
       _process_quote_state t 4 (Some 1) [] = Raises ex /\
       option_map forget_pos (kind_of ex) = Some (forget_pos kind)
   end) /\
  (nth_error s 1 = Some blank /\ isspace blank = true /\
   match unescape 0 (slice s 0 1) with
   | inl word =>
     _process_word_state s 1 (Some 0) [] = Returns (SPACE, 1, None, [] ++ [word])
   | inr kind =>
     exists ex,
       _process_word_state s 1 (Some 0) [] = Raises ex /\
       option_map forget_pos (kind_of ex) = Some (forget_pos kind)
   end).
Proof.
  cbv zeta.
  pose proof (make_word_is_unescape (lit "a b") 0 0)
    as (_ & Hbody & _ & Hword & _).
  pose proof (make_word_is_unescape
                ([quote] ++ lit "a" ++ [backslash; quote; quote]) 0 0)
    as (_ & _ & _ & _ & Hquoted & _).
  split; [|split].
  - split; [cbn; lia|]. split; [reflexivity|].
    apply (Hbody (Locals WORD 1 (Some 0) []) (Locals SPACE 1 None [lit "a"])).
    + cbn. lia.
    + reflexivity.
  - split; [reflexivity|]. split; [reflexivity|].
    apply (Hquoted 4 1 []); reflexivity.
  - split; [reflexivity|]. split; [reflexivity|].
    apply (Hword 1 0 [] blank); reflexivity.
Defined.

(** C4: in QUOTES with an open span, a quote at the cursor is passed over
    (the state stays QUOTES, the span stays open) exactly when the
    character just before it is a backslash, whatever precedes that one;
    in every other case the step ends the quoted region: it raises, or
    collects the decoded span and returns to SPACE.  So the input
    the quick [quote]brown fox[backslash][quote][quote] splits into the,
    quick and brown fox[quote]. *)
Theorem quote_closes_on_single_lookback string k b res
    (Hq : nth_error string k = Some quote) :
  (_process_quote_state string k (Some b) res =
     Returns (QUOTES, k + 1, Some b, res) <->
   exists j, k = S j /\ nth_error string j = Some backslash) /\
  ((forall j, k = S j -> nth_error string j <> Some backslash) ->
   (exists e, _process_quote_state string k (Some b) res = Raises e) \/
   (exists word,
       _make_word string b k = Returns word /\
       _process_quote_state string k (Some b) res =
         Returns (SPACE, k + 1, None, res ++ [word]))) /\
  split (lit "the quick " ++ [quote] ++ lit "brown fox"
           ++ [backslash; quote; quote]) =
    Returns [lit "the"; lit "quick"; lit "brown fox" ++ [quote]].
Proof.
  assert (Hlt : k < length string)
    by (apply nth_error_Some; rewrite Hq; discriminate).
  assert (Hstep :
    _process_quote_state string k (Some b) res =
    if prev_bs string k then Returns (QUOTES, k + 1, Some b, res)
    else word <- _make_word string b k ;;
         if next_nonspace string k
         then Raises (QuoteError SpaceMustFollowQuotes)
         else Returns (SPACE, k + 1, None, res ++ [word])).
  { unfold _process_quote_state.
    rewrite (index_at _ _ _ Hq), (preceded_by_backslash_eq _ _ Hlt),
      followed_by_nonspace_eq.
    cbn [bind]. rewrite N.eqb_refl. cbn [bind].
    destruct (prev_bs string k); cbn [negb]; [reflexivity|].
    destruct (_make_word string b k); reflexivity. }
  assert (Hprev : prev_bs string k = true <->
                  exists j, k = S j /\ nth_error string j = Some backslash).
  { unfold prev_bs. destruct k as [|j].
    - split; [discriminate|]. intros (j & Hj & _). discriminate.
    - split.
      + destruct (nth_error string j) as [c|] eqn:Hc; [|discriminate].
        intros E. apply N.eqb_eq in E. subst c. exists j. split; auto.
      + intros (j' & Hj & Hc). injection Hj as <-. rewrite Hc.
        apply N.eqb_refl. }
  rewrite Hstep. split; [|split].
  - rewrite <- Hprev. destruct (prev_bs string k).
    + split; reflexivity.
    + split; [|discriminate].
      destruct (_make_word string b k); cbn [bind]; try discriminate.
      destruct (next_nonspace string k); discriminate.
  - intros Hno. destruct (prev_bs string k) eqn:E.
    + destruct (proj1 Hprev eq_refl) as (j & Hk & Hj).
      exfalso. exact (Hno j Hk Hj).
    + destruct (_make_word string b k) as [word|e|] eqn:Hmw; cbn [bind].
      * destruct (next_nonspace string k); [left; eauto|].
        right. exists word. auto.
      * left. eauto.
      * rewrite _make_word_decode in Hmw.
        destruct (decode_cases (slice string b k) b) as [[w H]|[e [H _]]];
          congruence.
  - vm_compute. reflexivity.
Qed.

Lemma quote_closes_on_single_lookback_witness :
  let s := [quote; 97%N; backslash; quote; quote] in
  nth_error s 3 = Some quote /\
  (_process_quote_state s 3 (Some 1) [] = Returns (QUOTES, 3 + 1, Some 1, []) <->
   exists j, 3 = S j /\ nth_error s j = Some backslash).
Proof.
  cbv zeta. split; [reflexivity|].
  apply (quote_closes_on_single_lookback
           [quote; 97%N; backslash; quote; quote] 3 1 []).
  reflexivity.
Defined.

(** C10: in a bare word a quote is accepted whenever the character just
    before it is a backslash, be that backslash the second of an escaped
    pair: the five characters q, u, backslash, backslash, quote split into
    the one word q, u, backslash, quote. *)
Theorem quote_after_backslash_accepted string j
    (Hbs : nth_error string j = Some backslash)
    (Hq : nth_error string (S j) = Some quote) :
  _accept_word_char string (S j) = Returns (S j + 1) /\
  split (lit "qu" ++ [backslash; backslash; quote]) =
    Returns [lit "qu" ++ [backslash; quote]].
Proof.
  split; [|vm_compute; reflexivity].
  assert (Hlt : S j < length string)
    by (apply nth_error_Some; rewrite Hq; discriminate).
  unfold _accept_word_char.
  rewrite (index_at _ _ _ Hq), (preceded_by_backslash_eq _ _ Hlt).
  cbn [bind prev_bs]. rewrite Hbs.
  reflexivity.
Qed.

Lemma quote_after_backslash_accepted_witness :
  let s := lit "qu" ++ [backslash; backslash; quote] in
  nth_error s 3 = Some backslash /\
  nth_error s 4 = Some quote /\
  _accept_word_char s 4 = Returns 5.
Proof.
  cbv zeta. split; [reflexivity|]. split; [reflexivity|].
  apply (quote_after_backslash_accepted
           (lit "qu" ++ [backslash; backslash; quote]) 3); reflexivity.
Defined.

(** C7: a quoted region is one word, and an empty pair of quotes gives an
    empty word: in the middle, at the start and at the end of the input,
    whatever words [r] the rest of the input gives. *)
Theorem quoted_and_empty_tokens (s : str) r (Hs : split s = Returns r) :
  split (lit "the quick " ++ [quote] ++ lit "brown fox" ++ [quote]) =
    Returns [lit "the"; lit "quick"; lit "brown fox"] /\
  split (lit "the " ++ [quote; quote] ++ lit " quick") =
    Returns [lit "the"; []; lit "quick"] /\
  split ([quote; quote] ++ lit " the quick brown fox") =
    Returns [[]; lit "the"; lit "quick"; lit "brown"; lit "fox"] /\
  split (lit "the quick brown fox " ++ [quote; quote]) =
    Returns [lit "the"; lit "quick"; lit "brown"; lit "fox"; []] /\
  split [quote; quote] = Returns [[]] /\
  split ([quote; quote] ++ blank :: s) = Returns ([] :: r) /\
  split (s ++ blank :: [quote; quote]) = Returns (r ++ [[]]).
Proof.
  repeat split; try (vm_compute; reflexivity).
  - rewrite (split_words [quote; quote] s blank [[]] eq_refl eq_refl), Hs.
    reflexivity.
  - rewrite (split_words s [quote; quote] blank r eq_refl Hs).
    reflexivity.
Qed.

Lemma quoted_and_empty_tokens_witness :
  split (lit "a") = Returns [lit "a"] /\
  split ([quote; quote] ++ blank :: lit "a") = Returns ([] :: [lit "a"]) /\
  split (lit "a" ++ blank :: [quote; quote]) = Returns ([lit "a"] ++ [[]]).
Proof.
  split; [reflexivity|].
  apply (quoted_and_empty_tokens (lit "a") [lit "a"]). reflexivity.
Defined.

(** C5 as stated fails: an empty word has no white space, quote or
    backslash in it, and the one-word sequence made of it joins to the
    empty line, which splits into no word at all. *)
Lemma roundtrip_fails_on_empty_word :
  let words : list str := [[]] in
  Forall (Forall (fun c => plain c = true)) words /\
  split (join [blank] words) = Returns [] /\
  split (join [blank] words) <> Returns words.
Proof.
  cbv zeta. split; [repeat constructor|]. split; [reflexivity|].
  vm_compute. discriminate.
Qed.

(** C5, amended: for every sequence of words that are not empty and hold
    no white space, quote or backslash, joining them with single spaces
    and splitting gives the sequence back. *)
Theorem roundtrip_nonempty_words words
    (Hwords : Forall (fun w => w <> [] /\ Forall (fun c => plain c = true) w)
                     words) :
  split (join [blank] words) = Returns words.
Proof.
  induction Hwords as [|w rest [Hne Hw] Hrest IH]; [reflexivity|].
  destruct rest as [|w' rest'].
  - cbn [join]. now apply split_plain_word.
  - change (join [blank] (w :: w' :: rest'))
      with (w ++ blank :: join [blank] (w' :: rest')).
    rewrite (split_words w _ blank [w] eq_refl (split_plain_word w Hne Hw)).
    rewrite IH. reflexivity.
Qed.

Lemma roundtrip_nonempty_words_witness :
  Forall (fun w => w <> [] /\ Forall (fun c => plain c = true) w)
         [lit "ab"; lit "c"] /\
  split (join [blank] [lit "ab"; lit "c"]) = Returns [lit "ab"; lit "c"].
Proof.
  assert (H : Forall (fun w => w <> [] /\ Forall (fun c => plain c = true) w)
                     [lit "ab"; lit "c"]).
  { repeat constructor; discriminate. }
  split; [exact H|]. apply (roundtrip_nonempty_words [lit "ab"; lit "c"] H).
Defined.

(** Inside quotes white space is part of the word, not something between
    tokens. *)
Remark space_inside_quotes_is_kept :
  split ([quote] ++ lit "a  b" ++ [quote]) = Returns [lit "a  b"] /\
  split ([quote] ++ lit "a b" ++ [quote]) = Returns [lit "a b"].
Proof.
  split; reflexivity.
Qed.

(** C6: white space [ws] added in front of an input, after it, or next to
    white space that follows a part [s1] not ending inside an open quote,
    leaves the words of [split] as they are: in front it only moves the
    positions in the messages by its length, at the end it changes nothing
    at all, and between tokens the outcome is the same up to the positions
    in the messages, whichever white space characters are used.  So
    "  a   b  " splits as "a b" does, into a and b. *)
Theorem whitespace_never_matters ws (Hws : whitespace ws) :
  (forall s : str,
      split (ws ++ s) = map_outcome (fun r => r) (length ws) (split s)) /\
  (forall s : str, outline (split (ws ++ s)) = outline (split s)) /\
  (forall s : str, split (s ++ ws) = split s) /\
  (forall (s1 s2 : str) w,
      isspace w = true ->
      split s1 <> Raises (QuoteError QuoteNotClosed) ->
      outline (split (s1 ++ w :: ws ++ s2)) = outline (split (s1 ++ w :: s2))) /\
  (forall (s1 s2 : str) w w',
      isspace w = true ->
      isspace w' = true ->
      split s1 <> Raises (QuoteError QuoteNotClosed) ->
      split (s1 ++ w :: s2) = split (s1 ++ w' :: s2)) /\
  (forall s : str, outline (split s) <> None) /\
  split (lit "  a   b  ") = split (lit "a b") /\
  split (lit "a b") = Returns [lit "a"; lit "b"].
Proof.
  assert (Hlead : forall s : str, outline (split (ws ++ s)) = outline (split s)).
  { intros s. rewrite (split_leading ws s Hws), outline_map.
    destruct (outline (split s)) as [[r|k]|]; reflexivity. }
  repeat split; try (vm_compute; reflexivity).
  - intros s. now apply split_leading.
  - exact Hlead.
  - intros s. now apply split_trailing.
  - intros s1 s2 w Hw Hopen.
    destruct (split s1) as [r1|e|] eqn:Hs1.
    + rewrite (split_words s1 (ws ++ s2) w r1 Hw Hs1),
        (split_words s1 s2 w r1 Hw Hs1), !outline_map, Hlead.
      reflexivity.
    + assert (He : e <> QuoteError QuoteNotClosed) by congruence.
      rewrite (split_words_raises s1 (ws ++ s2) w e Hw Hs1 He),
        (split_words_raises s1 s2 w e Hw Hs1 He).
      reflexivity.
    + destruct (split_cases s1) as [[r H]|[e [H _]]]; congruence.
  - intros s1 s2 w w' Hw Hw' Hopen.
    destruct (split s1) as [r1|e|] eqn:Hs1.
    + now rewrite (split_words s1 s2 w r1 Hw Hs1),
        (split_words s1 s2 w' r1 Hw' Hs1).
    + assert (He : e <> QuoteError QuoteNotClosed) by congruence.
      now rewrite (split_words_raises s1 s2 w e Hw Hs1 He),
        (split_words_raises s1 s2 w' e Hw' Hs1 He).
    + destruct (split_cases s1) as [[r H]|[e [H _]]]; congruence.
  - intros s. unfold outline.
    destruct (split_cases s) as [[r ->]|[e [-> He]]]; cbn; [discriminate|].
    destruct (kind_of e); [discriminate | congruence].
Qed.

Lemma whitespace_never_matters_witness :
  whitespace (lit "  ") /\
  split (lit "  " ++ lit "a b") = split (lit "a b") /\
  split (lit "a b" ++ lit "  ") = split (lit "a b") /\
  outline (split (lit "a" ++ blank :: lit "  " ++ lit "b")) =
    outline (split (lit "a" ++ blank :: lit "b")).
Proof.
  assert (H : whitespace (lit "  ")) by (repeat constructor).
  pose proof (whitespace_never_matters (lit "  ") H)
    as (Hfront & _ & Hback & Hbetween & _).
  split; [exact H|]. split; [|split].
  - rewrite Hfront. reflexivity.
  - apply Hback.
  - apply Hbetween; [reflexivity | discriminate].
Defined.

(** C8: at every point where the loop condition is evaluated, the pending
    span is set exactly when the state is WORD or QUOTES and at least one
    character has been consumed since that state was entered, and it then
    starts where the state was entered; it is unset in SPACE, and unset in
    QUOTES right after the opening quote, which is the one character
    consumed for a token while its span is not started. *)
Theorem pending_span_invariant string entered l
    (Htop : top_of_loop string entered l) :
  (begin_word l <> None <->
   (state l = WORD \/ state l = QUOTES) /\ entered < i l) /\
  (state l = SPACE -> begin_word l = None) /\
  (forall b, begin_word l = Some b -> b = entered /\ b < i l) /\
  (state l = QUOTES -> begin_word l = None ->
   entered = i l /\
   exists j, i l = S j /\ nth_error string j = Some quote) /\
  i l <= length string.
Proof.
  destruct (top_of_loop_inv _ _ _ Htop) as (Hrange & Hinv).
  destruct l as [st k bw res]. cbn [state i begin_word result] in *.
  assert (Hset : forall b, bw = Some b -> b = entered /\ b < k).
  { intros b ->. destruct st; [contradiction | exact Hinv | exact Hinv]. }
  assert (Hunset : bw = None -> st = SPACE \/ entered = k).
  { intros ->. destruct st; [now left | right; apply Hinv ..]. }
  split; [split|split; [|split; [|split]]].
  - intros Hbw. destruct bw as [b|]; [|congruence].
    destruct (Hset b eq_refl) as [-> Hlt]. split; [|exact Hlt].
    destruct st; [contradiction | now left | now right].
  - intros [Hst Hlt]. destruct bw; [discriminate|].
    destruct (Hunset eq_refl) as [->|E]; [|lia].
    destruct Hst; discriminate.
  - intros ->. destruct bw; [contradiction | reflexivity].
  - exact Hset.
  - intros -> ->. exact Hinv.
  - lia.
Qed.

Lemma pending_span_invariant_witness :
  let s := [quote; 97%N] in
  let l := Locals QUOTES 1 None [] in
  top_of_loop s 1 l /\
  (begin_word l <> None <->
   (state l = WORD \/ state l = QUOTES) /\ 1 < i l).
Proof.
  cbv zeta.
  assert (H : top_of_loop [quote; 97%N] 1 (Locals QUOTES 1 None [])).
  { apply (top_next [quote; 97%N] 0 initial (Locals QUOTES 1 None [])
                    (top_first _)).
    - cbn. lia.
    - reflexivity. }
  split; [exact H|].
  apply (pending_span_invariant [quote; 97%N] 1 (Locals QUOTES 1 None []) H).
Defined.

(** C9: [split] ends on every input, returning the words or raising an
    exception of one of the five kinds, within the budget of twice the
    length, which more fuel does not change; a step never moves the cursor
    back nor by more than one, changes the state when it leaves the cursor
    in place, and no (state, index) pair is examined twice. *)
Theorem split_terminates (string : str) :
  ((exists r, split string = Returns r) \/
   (exists e, split string = Raises e /\ kind_of e <> None)) /\
  (forall fuel,
      2 * length string <= fuel ->
      scan fuel string initial = scan (2 * length string) string initial) /\
  (forall l l',
      i l < length string ->
      body string l = Returns l' ->
      i l <= i l' <= i l + 1 /\ (i l' = i l -> state l' <> state l)) /\
  NoDup (examined (2 * length string) string initial) /\
  length (examined (2 * length string) string initial) <= 2 * length string.
Proof.
  split; [apply split_cases|]. split; [|split; [|split]].
  - intros fuel Hfuel. pose proof (budget_le string initial).
    apply scan_enough; lia.
  - intros l l' Hlt Hb. now destruct (body_rank _ _ _ Hlt Hb) as (_ & ? & ?).
  - apply examined_ranked.
  - apply examined_ranked.
Qed.

Lemma split_terminates_witness :
  2 * length (lit "a b") <= 9 /\
  scan 9 (lit "a b") initial = scan (2 * length (lit "a b")) (lit "a b") initial.
Proof.
  split; [cbn; lia|].
  apply (proj1 (proj2 (split_terminates (lit "a b")))). cbn. lia.
Defined.

(** * Further properties *)

(** ** [_make_word] *)

Lemma decode_raises_bounds raw :
  forall pos e,
    decode pos raw = Raises e ->
    match e with
    | EscapeError (CannotEscape c k) =>
      (c =? backslash)%N = false /\ (c =? quote)%N = false /\
      pos < k < pos + length raw
    | EscapeError (InvalidBackslash k) => pos <= k < pos + length raw
    | _ => False
    end.
Proof.
  induction raw as [raw IH] using (induction_ltof1 _ (@length N)).
  unfold ltof in IH. intros pos e.
  destruct raw as [|c rest]; [discriminate|].
  cbn [decode]. destruct (c =? backslash)%N.
  - destruct rest as [|d rest].
    + intros [= <-]. cbn [length]. lia.
    + rewrite (N.eqb_sym backslash d), (N.eqb_sym quote d).
      destruct (d =? backslash)%N eqn:Eb.
      * specialize (IH rest (ltac:(cbn [length]; lia)) (pos + 1)).
        destruct (decode (pos + 1) rest) as [out|e'|]; cbn [bind];
          try discriminate.
        intros [= <-]. specialize (IH e' eq_refl).
        destruct e' as [m|m|m|]; try contradiction.
        destruct m; try contradiction; cbn [length]; intuition lia.
      * destruct (d =? quote)%N eqn:Eq.
        -- specialize (IH rest (ltac:(cbn [length]; lia)) (pos + 1)).
           destruct (decode (pos + 1) rest) as [out|e'|]; cbn [bind];
             try discriminate.
           intros [= <-]. specialize (IH e' eq_refl).
           destruct e' as [m|m|m|]; try contradiction.
           destruct m; try contradiction; cbn [length]; intuition lia.
        -- intros [= <-]. cbn [length]. repeat split; auto; lia.
  - specialize (IH rest (ltac:(cbn [length]; lia)) (pos + 1)).
    destruct (decode (pos + 1) rest) as [out|e'|]; cbn [bind];
      try discriminate.
    intros [= <-]. specialize (IH e' eq_refl).
    destruct e' as [m|m|m|]; try contradiction.
    destruct m; try contradiction; cbn [length]; intuition lia.
Qed.

Lemma decode_length raw :
  forall pos word,
    decode pos raw = Returns word ->
    length word + collapsed raw = length raw.
Proof.
  induction raw as [raw IH] using (induction_ltof1 _ (@length N)).
  unfold ltof in IH. intros pos word.
  destruct raw as [|c rest]; [intros [= <-]; reflexivity|].
  cbn [decode collapsed]. destruct (c =? backslash)%N.
  - destruct rest as [|d rest]; [discriminate|].
    rewrite (N.eqb_sym backslash d), (N.eqb_sym quote d).
    destruct (d =? backslash)%N eqn:Eb; cbn [orb].
    + specialize (IH rest (ltac:(cbn [length]; lia)) (pos + 1)).
      destruct (decode (pos + 1) rest) as [out| |]; cbn [bind];
        try discriminate.
      intros [= <-]. specialize (IH out eq_refl). cbn [length]. lia.
    + destruct (d =? quote)%N eqn:Eq; [|discriminate].
      specialize (IH rest (ltac:(cbn [length]; lia)) (pos + 1)).
      destruct (decode (pos + 1) rest) as [out| |]; cbn [bind];
        try discriminate.
      intros [= <-]. specialize (IH out eq_refl). cbn [length]. lia.
  - specialize (IH rest (ltac:(cbn [length]; lia)) (pos + 1)).
    destruct (decode (pos + 1) rest) as [out| |]; cbn [bind];
      try discriminate.
    intros [= <-]. specialize (IH out eq_refl). cbn [length]. lia.
Qed.

Lemma slice_length (string : str) b e :
  e <= length string -> length (slice string b e) = e - b.
Proof.
  intros He. unfold slice. rewrite length_firstn, length_skipn. lia.
Qed.

(** X1: [_make_word] always ends: whatever budget of at least the length
    of the slice its loop is given, it returns a word or raises
    [EscapeError], never anything else; the character it refuses to escape
    is neither a backslash nor a quote, and the index in either message
    lies within the span. *)
Theorem make_word_outcomes string b e (He : e <= length string) :
  (forall fuel,
      length (slice string b e) <= fuel ->
      _make_word_loop fuel b (slice string b e)
                      (find (slice string b e) backslash 0) =
      _make_word string b e) /\
  ((exists word, _make_word string b e = Returns word) \/
   (exists c k,
       _make_word string b e = Raises (EscapeError (CannotEscape c k)) /\
       c <> backslash /\ c <> quote /\ b < k < e) \/
   (exists k,
       _make_word string b e = Raises (EscapeError (InvalidBackslash k)) /\
       b <= k < e)).
Proof.
  split.
  - intros fuel Hfuel. rewrite _make_word_decode.
    pose proof (_make_word_loop_decode fuel b [] (slice string b e) Hfuel) as H.
    cbn [app length] in H. rewrite Nat.add_0_r in H. rewrite H.
    destruct (decode b (slice string b e)); reflexivity.
  - rewrite _make_word_decode.
    destruct (decode b (slice string b e)) as [word|ex|] eqn:Hd.
    + left. eauto.
    + pose proof (decode_raises_bounds _ _ _ Hd) as Hb.
      destruct (Nat.le_gt_cases e b) as [Hle|Hlt].
      { unfold slice in Hd. replace (e - b) with 0 in Hd by lia.
        discriminate. }
      rewrite slice_length in Hb by exact He.
      destruct ex as [m|m|m|]; try contradiction.
      destruct m as [| | | |c k|k]; try contradiction.
      * right. left. exists c, k. destruct Hb as (Hc1 & Hc2 & Hk).
        apply N.eqb_neq in Hc1, Hc2. repeat split; auto; lia.
      * right. right. exists k. split; [reflexivity | lia].
    + destruct (decode_cases (slice string b e) b) as [[w H]|[ex [H _]]];
        congruence.
Qed.

Lemma make_word_outcomes_witness :
  let s := lit "a" ++ [backslash] ++ lit "q" in
  3 <= length s /\
  ((exists word, _make_word s 0 3 = Returns word) \/
   (exists c k,
       _make_word s 0 3 = Raises (EscapeError (CannotEscape c k)) /\
       c <> backslash /\ c <> quote /\ 0 < k < 3) \/
   (exists k,
       _make_word s 0 3 = Raises (EscapeError (InvalidBackslash k)) /\
       0 <= k < 3)).
Proof.
  cbv zeta. split; [cbn; lia|].
  apply (make_word_outcomes (lit "a" ++ [backslash] ++ lit "q") 0 3).
  cbn. lia.
Defined.

(** X2: a word [_make_word] returns is shorter than its slice by exactly
    the number of escape pairs in it: it is the slice itself when the slice
    has no backslash, and never longer. *)
Theorem make_word_length string b e word
    (Hw : _make_word string b e = Returns word) :
  length word + collapsed (slice string b e) = length (slice string b e) /\
  length word <= e - b /\
  (Forall (fun c => (c =? backslash)%N = false) (slice string b e) ->
   word = slice string b e).
Proof.
  rewrite _make_word_decode in Hw.
  pose proof (decode_length _ _ _ Hw) as Hlen.
  split; [exact Hlen|]. split.
  - unfold slice in *. rewrite length_firstn in Hlen. lia.
  - intros Hplain. rewrite (decode_plain _ Hplain) in Hw. congruence.
Qed.

Lemma make_word_length_witness :
  let s := lit "qu" ++ [backslash; quote] ++ lit "ck b" in
  _make_word s 0 6 = Returns (lit "qu" ++ [quote] ++ lit "ck") /\
  length (lit "qu" ++ [quote] ++ lit "ck") + collapsed (slice s 0 6) =
    length (slice s 0 6).
Proof.
  cbv zeta. split; [reflexivity|].
  apply (make_word_length (lit "qu" ++ [backslash; quote] ++ lit "ck b") 0 6).
  reflexivity.
Defined.

Lemma decode_escaped word : forall pos, decode pos (escaped word) = Returns word.
Proof.
  induction word as [|c word IH]; intros pos; [reflexivity|].
  unfold escaped in *. cbn [flat_map].
  destruct (c =? backslash)%N eqn:Eb; cbn [orb].
  - apply N.eqb_eq in Eb. subst c. cbn [app decode].
    rewrite !N.eqb_refl, IH. reflexivity.
  - destruct (c =? quote)%N eqn:Eq.
    + apply N.eqb_eq in Eq. subst c. cbn [app decode].
      rewrite !N.eqb_refl. cbn. rewrite IH. reflexivity.
    + cbn [app decode]. rewrite Eb, IH. reflexivity.
Qed.

(** X3: [_make_word] undoes escaping: wherever the escaped form of a word
    stands in a string, the span over it decodes to the word. *)
Theorem make_word_escaped (before after word : str) :
  _make_word (before ++ escaped word ++ after) (length before)
             (length before + length (escaped word)) = Returns word.
Proof.
  rewrite _make_word_decode.
  replace (length before) with (length before + 0) at 2 by lia.
  rewrite slice_app_r, slice_app_l, slice_full by lia.
  apply decode_escaped.
Qed.

(** ** Escaped words *)

Lemma prev_bs_app_l (a t : str) k : k <= length a -> prev_bs (a ++ t) k = prev_bs a k.
Proof.
  intros Hk. unfold prev_bs. destruct k as [|j]; [reflexivity|].
  rewrite nth_error_app1 by lia. reflexivity.
Qed.

Lemma prev_bs_snoc (a : str) x :
  prev_bs (a ++ [x]) (length (a ++ [x])) = (x =? backslash)%N.
Proof.
  rewrite length_app. cbn [length].
  replace (length a + 1) with (S (length a)) by lia. cbn [prev_bs].
  rewrite nth_error_app2 by lia. rewrite Nat.sub_diag. reflexivity.
Qed.

Lemma escaped_app (a b : str) : escaped (a ++ b) = escaped a ++ escaped b.
Proof.
  unfold escaped. apply flat_map_app.
Qed.

Lemma escaped_one c :
  escaped [c] = if (c =? backslash)%N || (c =? quote)%N
                then [backslash; c] else [c].
Proof.
  unfold escaped. cbn [flat_map]. apply app_nil_r.
Qed.

Lemma escaped_quote_prev word :
  forall k,
    nth_error (escaped word) k = Some quote ->
    prev_bs (escaped word) k = true.
Proof.
  induction word as [|c word IH] using rev_ind; intros k Hk.
  - destruct k; discriminate.
  - rewrite escaped_app in *.
    destruct (Nat.lt_ge_cases k (length (escaped word))) as [Hlt|Hge].
    + rewrite nth_error_app1 in Hk by exact Hlt.
      rewrite prev_bs_app_l by lia. now apply IH.
    + rewrite nth_error_app2 in Hk by exact Hge.
      rewrite escaped_one in *.
      destruct (c =? backslash)%N eqn:Eb; cbn [orb] in *.
      * apply N.eqb_eq in Eb. subst c.
        destruct (k - length (escaped word)) as [|[|n]]; try discriminate.
        destruct n; discriminate.
      * destruct (c =? quote)%N eqn:Eq.
        -- destruct (k - length (escaped word)) as [|[|n]] eqn:E;
             try discriminate; [|destruct n; discriminate].
           replace k with (S (length (escaped word))) by lia.
           cbn [prev_bs]. rewrite nth_error_app2 by lia.
           rewrite Nat.sub_diag. reflexivity.
        -- destruct (k - length (escaped word)) as [|n]; cbn in Hk.
           ++ injection Hk as ->. discriminate.
           ++ destruct n; discriminate.
Qed.

Lemma escaped_end word :
  prev_bs (escaped word) (length (escaped word)) = prev_bs word (length word).
Proof.
  destruct word as [|c word] using rev_ind; [reflexivity|].
  rewrite prev_bs_snoc, escaped_app, escaped_one.
  destruct ((c =? backslash)%N || (c =? quote)%N).
  - replace (escaped word ++ [backslash; c])
      with ((escaped word ++ [backslash]) ++ [c])
      by (now rewrite <- app_assoc).
    apply prev_bs_snoc.
  - apply prev_bs_snoc.
Qed.

Lemma escaped_nonspace word :
  Forall (fun c => isspace c = false) word ->
  Forall (fun c => isspace c = false) (escaped word).
Proof.
  induction 1 as [|c word Hc Hw IH]; [constructor|].
  unfold escaped in *. cbn [flat_map].
  destruct ((c =? backslash)%N || (c =? quote)%N); cbn [app];
    repeat constructor; auto.
Qed.

Lemma escaped_nil word : escaped word = [] -> word = [].
Proof.
  destruct word as [|c word]; [reflexivity|].
  unfold escaped. cbn [flat_map].
  destruct ((c =? backslash)%N || (c =? quote)%N); discriminate.
Qed.

(** ** Passing over the characters of a token *)

Lemma word_pass string b :
  forall l,
    state l = WORD ->
    begin_word l = Some b ->
    i l <= length string ->
    (forall k c, i l <= k -> nth_error string k = Some c ->
                 isspace c = false /\
                 ((c =? quote)%N = true -> prev_bs string k = true)) ->
    run string l = Returns (Locals WORD (length string) (Some b) (result l)).
Proof.
  intros l. pattern l. apply (loop_ind string). clear l.
  intros l IH Hst Hbw Hle Hrest.
  destruct (Nat.ltb_spec (i l) (length string)) as [Hlt|Hge].
  - destruct (char_at string (i l) Hlt) as [c Hc].
    destruct (Hrest (i l) c (le_n _) Hc) as (Hs & Hq).
    rewrite (run_step _ _ Hlt).
    assert (Hb : body string l =
                 Returns (Locals WORD (i l + 1) (Some b) (result l))).
    { rewrite (body_eq _ _ _ Hc). unfold body_of. rewrite Hst, Hbw, Hs.
      destruct (c =? quote)%N; [|reflexivity].
      rewrite (Hq eq_refl). reflexivity. }
    rewrite Hb. cbn [bind].
    apply (IH _ Hlt Hb); cbn [state i begin_word result]; auto; try lia.
    intros k c' Hk. apply Hrest. lia.
  - rewrite (run_done _ _ Hge). destruct l as [st k bw res].
    cbn [state i begin_word result] in *. subst. f_equal. f_equal. lia.
Qed.

Lemma quotes_pass string b n :
  forall l,
    state l = QUOTES ->
    begin_word l = Some b ->
    i l + n <= length string ->
    (forall k, i l <= k < i l + n -> nth_error string k = Some quote ->
               prev_bs string k = true) ->
    run string l =
    run string (Locals QUOTES (i l + n) (Some b) (result l)).
Proof.
  induction n as [|n IH]; intros l Hst Hbw Hle Hrest.
  - destruct l as [st k bw res]. cbn [state i begin_word result] in *.
    subst. now rewrite Nat.add_0_r.
  - assert (Hlt : i l < length string) by lia.
    destruct (char_at string (i l) Hlt) as [c Hc].
    rewrite (run_step _ _ Hlt), (body_eq _ _ _ Hc).
    unfold body_of. rewrite Hst, Hbw.
    assert (Hpass : (c =? quote)%N && negb (prev_bs string (i l)) = false).
    { destruct (c =? quote)%N eqn:Eq; [|reflexivity].
      apply N.eqb_eq in Eq. subst c.
      rewrite (Hrest (i l)) by (auto; lia). reflexivity. }
    rewrite Hpass. cbn [bind].
    rewrite (IH (Locals QUOTES (i l + 1) (Some b) (result l)));
      cbn [state i begin_word result]; auto; try lia.
    + do 2 f_equal. lia.
    + intros k Hk. apply Hrest. lia.
Qed.

(** ** Escaped words come back *)

Lemma split_escaped (word : str) :
  word <> [] ->
  Forall (fun c => isspace c = false) word ->
  split (escaped word) = Returns [word].
Proof.
  intros Hne Hw.
  pose proof (escaped_nonspace word Hw) as Hs.
  pose proof (escaped_quote_prev word) as Hq.
  pose proof (decode_escaped word 0) as Hd.
  destruct (escaped word) as [|c s'] eqn:E;
    [apply escaped_nil in E; contradiction|].
  set (s := c :: s') in *.
  assert (Hc : isspace c = false) by now inversion Hs.
  assert (Hcq : (c =? quote)%N = false).
  { destruct (c =? quote)%N eqn:Eq; [|reflexivity].
    apply N.eqb_eq in Eq. subst c. discriminate (Hq 0 eq_refl). }
  assert (Hlen : 0 < length s) by (cbn; lia).
  unfold split. fold (run s initial).
  rewrite run_step by exact Hlen.
  rewrite (body_eq s initial c eq_refl). unfold body_of.
  cbn [state i begin_word result initial]. rewrite Hcq, Hc. cbn [negb bind].
  rewrite run_step by exact Hlen.
  rewrite (body_eq s (Locals WORD 0 None []) c eq_refl). unfold body_of.
  cbn [state i begin_word result]. rewrite Hcq, Hc. cbn [orb andb bind].
  rewrite (word_pass s 0); cbn [state i begin_word result]; auto; try lia.
  2:{ intros k c' _ Hk. split.
      - rewrite Forall_forall in Hs. apply Hs. eapply nth_error_In; eauto.
      - intros Eq. apply N.eqb_eq in Eq. subst c'. now apply Hq. }
  cbn [bind]. unfold finish. cbn [state i begin_word result].
  rewrite _make_word_decode, slice_full, Hd. reflexivity.
Qed.

(** X4: bare words written with their backslashes and quotes escaped come
    back: for words that are not empty and hold no white space, the escaped
    forms joined with single spaces split into the words themselves. *)
Theorem escaped_words_roundtrip words
    (Hwords : Forall (fun w => w <> [] /\ Forall (fun c => isspace c = false) w)
                     words) :
  split (join [blank] (map escaped words)) = Returns words.
Proof.
  induction Hwords as [|w rest [Hne Hw] Hrest IH]; [reflexivity|].
  destruct rest as [|w' rest'].
  - cbn [map join]. now apply split_escaped.
  - change (join [blank] (map escaped (w :: w' :: rest')))
      with (escaped w ++ blank :: join [blank] (map escaped (w' :: rest'))).
    rewrite (split_words (escaped w) _ blank [w] eq_refl
                         (split_escaped w Hne Hw)).
    rewrite IH. reflexivity.
Qed.

Lemma escaped_words_roundtrip_witness :
  let words := [lit "a" ++ [quote] ++ lit "b"; [backslash]] in
  Forall (fun w => w <> [] /\ Forall (fun c => isspace c = false) w) words /\
  split (join [blank] (map escaped words)) = Returns words.
Proof.
  cbv zeta.
  assert (H : Forall (fun w => w <> [] /\ Forall (fun c => isspace c = false) w)
                     [lit "a" ++ [quote] ++ lit "b"; [backslash]]).
  { repeat constructor; discriminate. }
  split; [exact H|].
  apply (escaped_words_roundtrip [lit "a" ++ [quote] ++ lit "b"; [backslash]] H).
Defined.

(** ** Quoted tokens *)

Lemma quoted_scan (body t : str) :
  body <> [] ->
  (forall k, nth_error body k = Some quote -> prev_bs body k = true) ->
  run (quote :: body ++ t) initial =
  run (quote :: body ++ t) (Locals QUOTES (1 + length body) (Some 1) []).
Proof.
  intros Hne Hq. destruct body as [|c0 rest]; [contradiction|].
  set (s := quote :: (c0 :: rest) ++ t).
  assert (Hlen : length s = 2 + length rest + length t).
  { unfold s. cbn [length app]. rewrite length_app. lia. }
  assert (Hc0 : (c0 =? quote)%N = false).
  { destruct (c0 =? quote)%N eqn:Eq; [|reflexivity].
    apply N.eqb_eq in Eq. subst c0. discriminate (Hq 0 eq_refl). }
  rewrite run_step by (cbn [i initial]; lia).
  rewrite (body_eq s initial quote eq_refl). unfold body_of.
  cbn [state i begin_word result initial]. rewrite N.eqb_refl. cbn [bind].
  rewrite run_step by (cbn [i]; lia).
  rewrite (body_eq s (Locals QUOTES (0 + 1) None []) c0 eq_refl).
  unfold body_of. cbn [state i begin_word result]. rewrite Hc0. cbn [bind].
  rewrite (quotes_pass s 1 (length rest));
    cbn [state i begin_word result]; auto; try lia.
  intros k Hk Hat.
  destruct k as [|[|j]]; try lia.
  unfold s in *. cbn [nth_error app prev_bs] in *.
  assert (Hj : j < length rest) by lia.
  rewrite nth_error_app1 in Hat by exact Hj.
  specialize (Hq (S j)). cbn [nth_error prev_bs] in Hq.
  specialize (Hq Hat).
  destruct j as [|j']; [exact Hq|].
  cbn [nth_error] in *. rewrite nth_error_app1 by lia. exact Hq.
Qed.

Lemma quoted_slice (body t : str) :
  slice (quote :: body ++ t) 1 (1 + length body) = body.
Proof.
  change (quote :: body ++ t) with ([quote] ++ (body ++ t)).
  change 1 with (length [quote] + 0) at 1.
  change (1 + length body) with (length [quote] + length body).
  rewrite slice_app_r, slice_app_l, slice_full by lia. reflexivity.
Qed.

Lemma quoted_prev (body t : str) :
  body <> [] ->
  prev_bs (quote :: body ++ t) (1 + length body) = prev_bs body (length body).
Proof.
  intros Hne. destruct body as [|c0 rest] using rev_ind; [contradiction|].
  rewrite prev_bs_snoc, length_app. cbn [length].
  replace (1 + (length rest + 1)) with (S (S (length rest))) by lia.
  cbn [prev_bs nth_error]. rewrite <- app_assoc.
  rewrite nth_error_app2 by lia. rewrite Nat.sub_diag. reflexivity.
Qed.

(** The scan of a quoted word: at the closing quote the word is collected,
    unless what follows is no white space. *)
Lemma quoted_run (word t : str) :
  prev_bs word (length word) = false ->
  run (quoted word ++ t) initial =
  if next_nonspace (quoted word ++ t) (length (quoted word) - 1)
  then Raises (QuoteError SpaceMustFollowQuotes)
  else run (quoted word ++ t)
           (Locals SPACE (length (quoted word)) None [word]).
Proof.
  intros Hend. unfold quoted.
  replace (([quote] ++ escaped word ++ [quote]) ++ t)
    with (quote :: escaped word ++ quote :: t)
    by (cbn [app]; now rewrite <- app_assoc).
  replace (length ([quote] ++ escaped word ++ [quote]))
    with (1 + length (escaped word) + 1)
    by (cbn [app length]; rewrite length_app; cbn [length]; lia).
  replace (1 + length (escaped word) + 1 - 1)
    with (1 + length (escaped word)) by lia.
  set (s := quote :: escaped word ++ quote :: t).
  assert (Hlen : length s = 2 + length (escaped word) + length t).
  { unfold s. cbn [length]. rewrite length_app. cbn [length]. lia. }
  assert (Hat : nth_error s (1 + length (escaped word)) = Some quote).
  { unfold s. cbn [Nat.add nth_error]. rewrite nth_error_app2 by lia.
    rewrite Nat.sub_diag. reflexivity. }
  destruct word as [|c w'].
  - cbn [escaped flat_map length Nat.add] in *.
    rewrite run_step by (cbn [i initial]; lia).
    rewrite (body_eq s initial quote eq_refl). unfold body_of.
    cbn [state i begin_word result initial]. rewrite N.eqb_refl. cbn [bind].
    rewrite run_step by (cbn [i]; lia).
    rewrite (body_eq s (Locals QUOTES (0 + 1) None []) quote eq_refl).
    unfold body_of. cbn [state i begin_word result]. rewrite N.eqb_refl.
    cbn [Nat.add]. destruct (next_nonspace s 1); reflexivity.
  - set (word := c :: w') in *.
    assert (Hne : escaped word <> []).
    { intros E. apply escaped_nil in E. discriminate. }
    unfold s.
    rewrite (quoted_scan (escaped word) (quote :: t) Hne
                         (escaped_quote_prev word)).
    fold s.
    rewrite run_step by (cbn [i]; lia).
    rewrite (body_eq _ _ quote) by exact Hat.
    unfold body_of, pending. cbn [state i begin_word result].
    rewrite N.eqb_refl. unfold s at 1.
    rewrite (quoted_prev _ _ Hne).
    rewrite escaped_end, Hend. cbn [andb negb].
    rewrite _make_word_decode. unfold s at 1.
    rewrite quoted_slice, decode_escaped. cbn [bind app].
    destruct (next_nonspace s (1 + length (escaped word))); reflexivity.
Qed.

Lemma quoted_length (word : str) : length (quoted word) = length (escaped word) + 2.
Proof.
  unfold quoted. cbn [app length]. rewrite length_app. cbn [length]. lia.
Qed.

Lemma next_nonspace_quoted (word t : str) :
  next_nonspace (quoted word ++ t) (length (quoted word) - 1) =
  match t with
  | c :: _ => negb (isspace c)
  | [] => false
  end.
Proof.
  unfold next_nonspace.
  replace (length (quoted word) - 1 + 1) with (length (quoted word))
    by (rewrite quoted_length; lia).
  rewrite nth_error_app2 by lia. rewrite Nat.sub_diag.
  destruct t; reflexivity.
Qed.

Lemma split_quoted (word : str) :
  prev_bs word (length word) = false ->
  split (quoted word) = Returns [word].
Proof.
  intros Hend. unfold split. fold (run (quoted word) initial).
  pose proof (quoted_run word [] Hend) as H.
  rewrite next_nonspace_quoted, app_nil_r in H. rewrite H.
  rewrite run_done by (cbn [i]; lia). reflexivity.
Qed.

Lemma no_backslash_end (word : str) :
  (forall w', word <> w' ++ [backslash]) <-> prev_bs word (length word) = false.
Proof.
  destruct word as [|c w] using rev_ind.
  - split; [reflexivity|]. intros _ w' E. destruct w'; discriminate.
  - rewrite prev_bs_snoc. split.
    + intros H. apply N.eqb_neq. intros ->. now apply (H w).
    + intros Hc w' E. apply app_inj_tail in E. destruct E as [_ ->].
      discriminate.
Qed.

(** X5: any words, empty ones and ones with white space included, come
    back when written between quotes with their backslashes and quotes
    escaped and joined with single spaces, provided none of them ends in a
    backslash. *)
Theorem quoted_words_roundtrip words
    (Hwords : Forall (fun w : str => forall w', w <> w' ++ [backslash]) words) :
  split (join [blank] (map quoted words)) = Returns words.
Proof.
  induction Hwords as [|w rest Hw Hrest IH]; [reflexivity|].
  apply no_backslash_end in Hw.
  destruct rest as [|w' rest'].
  - cbn [map join]. now apply split_quoted.
  - change (join [blank] (map quoted (w :: w' :: rest')))
      with (quoted w ++ blank :: join [blank] (map quoted (w' :: rest'))).
    rewrite (split_words (quoted w) _ blank [w] eq_refl (split_quoted w Hw)).
    rewrite IH. reflexivity.
Qed.

Lemma quoted_words_roundtrip_witness :
  let words := [lit "a b"; []; [quote] ++ lit " " ++ [backslash] ++ lit "c"] in
  Forall (fun w : str => forall w', w <> w' ++ [backslash]) words /\
  split (join [blank] (map quoted words)) = Returns words.
Proof.
  cbv zeta.
  assert (H : Forall (fun w : str => forall w', w <> w' ++ [backslash])
                     [lit "a b"; [];
                      [quote] ++ lit " " ++ [backslash] ++ lit "c"]).
  { repeat constructor; apply no_backslash_end; reflexivity. }
  split; [exact H|].
  apply (quoted_words_roundtrip _ H).
Defined.

(** X6: a word that ends in a backslash cannot be written between quotes:
    the closing quote comes right after the escaped backslash and is taken
    for an escaped quote, so that, when no further quote follows, [split]
    raises [QuoteError] for a quote that was not closed. *)
Theorem quoted_backslash_end_unclosed (word t : str)
    (Ht : Forall (fun c => (c =? quote)%N = false) t) :
  split (quoted (word ++ [backslash]) ++ t) = Raises (QuoteError QuoteNotClosed).
Proof.
  set (w := word ++ [backslash]). unfold quoted.
  replace (([quote] ++ escaped w ++ [quote]) ++ t)
    with (quote :: escaped w ++ quote :: t)
    by (cbn [app]; now rewrite <- app_assoc).
  set (s := quote :: escaped w ++ quote :: t).
  assert (Hne : escaped w <> []).
  { intros E. apply escaped_nil in E. unfold w in E.
    destruct word; discriminate. }
  assert (Hlen : length s = 2 + length (escaped w) + length t).
  { unfold s. cbn [length]. rewrite length_app. cbn [length]. lia. }
  assert (Hprev : prev_bs s (1 + length (escaped w)) = true).
  { unfold s. rewrite (quoted_prev _ _ Hne), escaped_end.
    unfold w. apply prev_bs_snoc. }
  unfold split. fold (run s initial). unfold s at 1.
  rewrite (quoted_scan (escaped w) (quote :: t) Hne (escaped_quote_prev w)).
  fold s.
  rewrite (quotes_pass s 1 1); cbn [state i begin_word result]; auto;
    try lia.
  2:{ intros k Hk _. replace k with (1 + length (escaped w)) by lia.
      exact Hprev. }
  destruct (quotes_to_the_end s
              (Locals QUOTES (1 + length (escaped w) + 1) (Some 1) []) eq_refl)
    as (l1 & -> & Hst).
  - cbn [i]. intros k c Hk Hc. unfold s in Hc.
    replace k with (S (length (escaped w) + S (k - length (escaped w) - 2)))
      in Hc by lia.
    cbn [nth_error] in Hc. rewrite nth_error_app2 in Hc by lia.
    replace (length (escaped w) + S (k - length (escaped w) - 2)
             - length (escaped w))
      with (S (k - length (escaped w) - 2)) in Hc by lia.
    cbn [nth_error] in Hc. apply nth_error_In in Hc.
    rewrite Forall_forall in Ht. now apply Ht.
  - cbn [bind]. unfold finish. now rewrite Hst.
Qed.

Lemma quoted_backslash_end_unclosed_witness :
  Forall (fun c => (c =? quote)%N = false) (lit " b") /\
  split (quoted (lit "a" ++ [backslash]) ++ lit " b") =
    Raises (QuoteError QuoteNotClosed).
Proof.
  assert (H : Forall (fun c => (c =? quote)%N = false) (lit " b"))
    by (repeat constructor).
  split; [exact H|].
  apply (quoted_backslash_end_unclosed (lit "a") (lit " b") H).
Defined.

(** X7: after a closing quote nothing but white space may follow: a quoted
    word directly followed by any other character makes [split] raise
    [QuoteError], whatever comes after. *)
Theorem closing_quote_needs_space (word t : str) c
    (Hword : forall w', word <> w' ++ [backslash])
    (Hc : isspace c = false) :
  split (quoted word ++ c :: t) = Raises (QuoteError SpaceMustFollowQuotes).
Proof.
  apply no_backslash_end in Hword.
  unfold split. fold (run (quoted word ++ c :: t) initial).
  rewrite (quoted_run word (c :: t) Hword), next_nonspace_quoted, Hc.
  reflexivity.
Qed.

Lemma closing_quote_needs_space_witness :
  (forall w', lit "brown" <> w' ++ [backslash]) /\
  isspace 102%N = false /\
  split (quoted (lit "brown") ++ 102%N :: lit "ox") =
    Raises (QuoteError SpaceMustFollowQuotes).
Proof.
  assert (H : forall w', lit "brown" <> w' ++ [backslash])
    by (apply no_backslash_end; reflexivity).
  split; [exact H|]. split; [reflexivity|].
  apply (closing_quote_needs_space (lit "brown") (lit "ox") 102%N H).
  reflexivity.
Defined.

(** ** Composition at white space *)

(** X8: [split] composes at white space: when a first part splits into
    words, the whole made of it, a white space character and a second part
    gives those words followed by the outcome of the second part alone,
    with the positions in its messages moved past the first part; and when
    the first part fails otherwise than by an open quote, the whole fails
    in the same way. *)
Theorem split_composes (s1 s2 : str) w (Hw : isspace w = true) :
  (forall r1,
      split s1 = Returns r1 ->
      split (s1 ++ w :: s2) =
      map_outcome (app r1) (length s1 + 1) (split s2)) /\
  (forall r1 r2,
      split s1 = Returns r1 -> split s2 = Returns r2 ->
      split (s1 ++ w :: s2) = Returns (r1 ++ r2)) /\
  (forall e,
      split s1 = Raises e -> e <> QuoteError QuoteNotClosed ->
      split (s1 ++ w :: s2) = Raises e).
Proof.
  split; [|split].
  - intros r1 H1. now apply split_words.
  - intros r1 r2 H1 H2. rewrite (split_words s1 s2 w r1 Hw H1), H2.
    reflexivity.
  - intros e H1 He. now apply split_words_raises.
Qed.

Lemma split_composes_witness :
  isspace blank = true /\
  split (lit "a b" ++ blank :: lit "c") = Returns ([lit "a"; lit "b"] ++ [lit "c"]).
Proof.
  split; [reflexivity|].
  apply (proj1 (proj2 (split_composes (lit "a b") (lit "c") blank eq_refl)));
    reflexivity.
Defined.

(** ** The steps of the loop, case by case *)

Lemma body_transition string entered l l' :
  top_of_loop string entered l ->
  i l < length string ->
  body string l = Returns l' ->
  transition string l l'.
Proof.
  intros Htop Hlt Hb.
  destruct (top_of_loop_inv _ _ _ Htop) as (Hrange & Hinv).
  destruct (char_at string (i l) Hlt) as [c Hc].
  rewrite (body_eq _ _ _ Hc) in Hb. unfold body_of, pending in Hb.
  destruct l as [st k bw res]. cbn [state i begin_word result] in *.
  destruct st; [|destruct bw as [b|] | destruct bw as [b|]].
  - destruct bw; [contradiction|].
    destruct (c =? quote)%N eqn:Eq.
    + apply N.eqb_eq in Eq. subst c. injection Hb as <-. now constructor.
    + apply N.eqb_neq in Eq.
      destruct (isspace c) eqn:Es; cbn [negb] in Hb; injection Hb as <-.
      * eapply step_skip; eauto.
      * eapply step_begin; eauto.
  - destruct Hinv as [-> Hbk].
    destruct (isspace c) eqn:Es.
    + destruct (_make_word string entered k) as [word| |] eqn:Hw;
        cbn [bind] in Hb; try discriminate.
      injection Hb as <-. eapply step_end_word; eauto.
    + destruct (c =? quote)%N eqn:Eq; cbn [andb] in Hb.
      * destruct (prev_bs string k) eqn:Ep; [|discriminate].
        injection Hb as <-. eapply step_more; eauto.
      * injection Hb as <-. eapply step_more; eauto.
        intros ->. discriminate.
  - destruct Hinv as (_ & c' & Hc' & Hs & Hq).
    rewrite Hc in Hc'. injection Hc' as <-.
    rewrite Hs, Hq in Hb. cbn [orb andb] in Hb. injection Hb as <-.
    eapply step_first; eauto. intros ->. discriminate.
  - destruct Hinv as [-> Hbk].
    destruct (c =? quote)%N eqn:Eq; cbn [andb] in Hb.
    + apply N.eqb_eq in Eq. subst c.
      destruct (prev_bs string k) eqn:Ep; cbn [negb] in Hb.
      * injection Hb as <-. eapply step_inside; eauto.
      * destruct (_make_word string entered k) as [word| |] eqn:Hw;
          cbn [bind] in Hb; try discriminate.
        destruct (next_nonspace string k) eqn:En; [discriminate|].
        injection Hb as <-. now constructor.
    + injection Hb as <-. eapply step_inside; eauto.
      intros ->. discriminate.
  - destruct (c =? quote)%N eqn:Eq.
    + apply N.eqb_eq in Eq. subst c.
      destruct (next_nonspace string k) eqn:En; [discriminate|].
      injection Hb as <-. now constructor.
    + injection Hb as <-. eapply step_first_quoted; eauto.
      intros ->. discriminate.
Qed.

Lemma body_failure string entered l e :
  top_of_loop string entered l ->
  i l < length string ->
  body string l = Raises e ->
  failure string l e.
Proof.
  intros Htop Hlt Hb.
  destruct (top_of_loop_inv _ _ _ Htop) as (Hrange & Hinv).
  destruct (char_at string (i l) Hlt) as [c Hc].
  rewrite (body_eq _ _ _ Hc) in Hb. unfold body_of, pending in Hb.
  destruct l as [st k bw res]. cbn [state i begin_word result] in *.
  destruct st; [|destruct bw as [b|] | destruct bw as [b|]].
  - destruct (c =? quote)%N; [discriminate|].
    destruct (negb (isspace c)); discriminate.
  - destruct Hinv as [-> Hbk].
    destruct (isspace c) eqn:Es.
    + destruct (_make_word string entered k) as [word|e'|] eqn:Hw;
        cbn [bind] in Hb; try discriminate.
      injection Hb as <-. eapply fail_word_escape; eauto.
    + destruct (c =? quote)%N eqn:Eq; cbn [andb] in Hb; [|discriminate].
      apply N.eqb_eq in Eq. subst c.
      destruct (prev_bs string k) eqn:Ep; [discriminate|].
      injection Hb as <-. now constructor.
  - destruct Hinv as (_ & c' & Hc' & Hs & Hq).
    rewrite Hc in Hc'. injection Hc' as <-.
    rewrite Hs, Hq in Hb. discriminate.
  - destruct Hinv as [-> Hbk].
    destruct (c =? quote)%N eqn:Eq; cbn [andb] in Hb; [|discriminate].
    apply N.eqb_eq in Eq. subst c.
    destruct (prev_bs string k) eqn:Ep; cbn [negb] in Hb; [discriminate|].
    destruct (_make_word string entered k) as [word|e'|] eqn:Hw;
      cbn [bind] in Hb; try discriminate.
    + destruct (next_nonspace string k) eqn:En; [|discriminate].
      injection Hb as <-. eapply fail_close_no_space; eauto.
    + injection Hb as <-. now constructor.
  - destruct (c =? quote)%N eqn:Eq; [|discriminate].
    apply N.eqb_eq in Eq. subst c.
    destruct (next_nonspace string k) eqn:En; [|discriminate].
    injection Hb as <-. now constructor.
Qed.

(** A property kept by every step holds wherever the loop gets. *)
Lemma top_of_loop_keeps string (P : locals -> Prop) :
  P initial ->
  (forall l l', P l -> transition string l l' -> P l') ->
  forall entered l, top_of_loop string entered l -> P l.
Proof.
  intros Hinit Hstep entered l Htop.
  induction Htop as [|entered l l' Htop IH Hlt Hb]; [exact Hinit|].
  apply (Hstep l l' IH). eapply body_transition; eauto.
Qed.

Lemma run_raises_at string :
  forall l entered e,
    top_of_loop string entered l ->
    run string l = Raises e ->
    exists entered1 l1,
      top_of_loop string entered1 l1 /\ i l1 < length string /\
      failure string l1 e.
Proof.
  intros l. pattern l. apply (loop_ind string). clear l.
  intros l IH entered e Htop Hrun.
  destruct (Nat.ltb_spec (i l) (length string)) as [Hlt|Hge].
  - rewrite (run_step _ _ Hlt) in Hrun.
    destruct (body string l) as [l'|e'|] eqn:Hb; cbn [bind] in Hrun;
      try discriminate.
    + eapply (IH l' Hlt eq_refl); [|exact Hrun]. eapply top_next; eauto.
    + injection Hrun as ->. exists entered, l. repeat split; auto.
      eapply body_failure; eauto.
  - rewrite (run_done _ _ Hge) in Hrun. discriminate.
Qed.

(** How a call that returns ended: in SPACE, or in a word that reaches the
    end of the input. *)
Lemma split_returns_inv (string : str) r :
  split string = Returns r ->
  exists entered l,
    top_of_loop string entered l /\ i l = length string /\
    ((state l = SPACE /\ begin_word l = None /\ r = result l) \/
     (exists b word,
         state l = WORD /\ begin_word l = Some b /\ b < length string /\
         _make_word string b (length string) = Returns word /\
         r = result l ++ [word])).
Proof.
  unfold split. fold (run string initial). intros H.
  destruct (run string initial) as [l| |] eqn:Hrun; cbn [bind] in H;
    try discriminate.
  destruct (run_top string initial 0 l (top_first _) Hrun) as [entered Htop].
  pose proof (run_ends string initial l (Nat.le_0_l _) Hrun) as Hend.
  exists entered, l. split; [exact Htop|]. split; [exact Hend|].
  destruct (top_of_loop_inv _ _ _ Htop) as (Hrange & Hinv).
  unfold finish in H. destruct l as [st k bw res].
  cbn [state i begin_word result] in *. subst k.
  destruct st; [|destruct bw as [b|] | discriminate].
  - destruct bw; [contradiction|]. injection H as <-. now left.
  - destruct Hinv as [-> Hb].
    destruct (_make_word string entered (length string)) as [word| |] eqn:Hw;
      cbn [bind] in H; try discriminate.
    injection H as <-. right. exists entered, word. auto.
  - destruct Hinv as (_ & c & Hc & _).
    rewrite (proj2 (nth_error_None string (length string)) (le_n _)) in Hc.
    discriminate.
Qed.

(** How a call that raises ended: in a step of the loop, in QUOTES at the
    end of the input, or in the decoding of the last word. *)
Lemma split_raises_inv (string : str) e :
  split string = Raises e ->
  (exists entered l,
      top_of_loop string entered l /\ i l < length string /\
      failure string l e) \/
  (exists entered l,
      top_of_loop string entered l /\ i l = length string /\
      ((state l = QUOTES /\ e = QuoteError QuoteNotClosed) \/
       (exists b, state l = WORD /\ begin_word l = Some b /\
                  b < length string /\
                  _make_word string b (length string) = Raises e))).
Proof.
  unfold split. fold (run string initial). intros H.
  destruct (run string initial) as [l|e'|] eqn:Hrun; cbn [bind] in H;
    try discriminate.
  - right.
    destruct (run_top string initial 0 l (top_first _) Hrun) as [entered Htop].
    pose proof (run_ends string initial l (Nat.le_0_l _) Hrun) as Hend.
    exists entered, l. split; [exact Htop|]. split; [exact Hend|].
    destruct (top_of_loop_inv _ _ _ Htop) as (Hrange & Hinv).
    unfold finish in H. destruct l as [st k bw res].
    cbn [state i begin_word result] in *. subst k.
    destruct st; [|destruct bw as [b|] |].
    + destruct bw; [contradiction | discriminate].
    + destruct Hinv as [-> Hb].
      destruct (_make_word string entered (length string)) as [word|e'|] eqn:Hw;
        cbn [bind] in H; try discriminate.
      injection H as <-. right. exists entered. auto.
    + discriminate.
    + injection H as <-. now left.
  - injection H as ->. left.
    destruct (run_raises_at string initial 0 e (top_first _) Hrun)
      as (entered & l & Htop & Hlt & Hf).
    eauto.
Qed.

(** ** What the scan has read *)

Lemma firstn_next (s : str) k c :
  nth_error s k = Some c -> firstn (k + 1) s = firstn k s ++ [c].
Proof.
  revert k. induction s as [|x s IH]; intros k Hk; [destruct k; discriminate|].
  destruct k as [|k]; cbn in *.
  - now injection Hk as ->.
  - f_equal. now apply IH.
Qed.

Lemma slice_next (s : str) b k c :
  b <= k -> nth_error s k = Some c -> slice s b (k + 1) = slice s b k ++ [c].
Proof.
  intros Hb Hk. unfold slice.
  replace (k + 1 - b) with ((k - b) + 1) by lia.
  apply firstn_next. rewrite nth_error_skipn.
  now replace (b + (k - b)) with k by lia.
Qed.

Lemma slice_empty (s : str) k : slice s k k = [].
Proof.
  unfold slice. now rewrite Nat.sub_diag.
Qed.

Lemma make_word_raises string b e ex :
  _make_word string b e = Raises ex -> raised_in_make_word ex.
Proof.
  rewrite _make_word_decode. intros H.
  destruct (decode_cases (slice string b e) b) as [[w Hw]|[ex' [Hex He]]];
    congruence.
Qed.

Lemma run_from_top string entered l :
  top_of_loop string entered l -> run string initial = run string l.
Proof.
  induction 1 as [|entered l l' Htop IH Hlt Hb]; [reflexivity|].
  rewrite IH, (run_step _ _ Hlt), Hb. reflexivity.
Qed.

Lemma transition_grows string l l' :
  transition string l l' ->
  result l' = result l \/ exists word, result l' = result l ++ [word].
Proof.
  destruct 1; cbn [result]; eauto.
Qed.

Lemma run_grows string :
  forall l entered l1,
    top_of_loop string entered l ->
    run string l = Returns l1 ->
    exists rest, result l1 = result l ++ rest.
Proof.
  intros l. pattern l. apply (loop_ind string). clear l.
  intros l IH entered l1 Htop Hrun.
  destruct (Nat.ltb_spec (i l) (length string)) as [Hlt|Hge].
  - rewrite (run_step _ _ Hlt) in Hrun.
    destruct (body string l) as [l'| |] eqn:Hb; cbn [bind] in Hrun;
      try discriminate.
    destruct (IH l' Hlt eq_refl _ l1 (top_next _ _ _ _ Htop Hlt Hb) Hrun)
      as [rest Hrest].
    destruct (transition_grows _ _ _ (body_transition _ _ _ _ Htop Hlt Hb))
      as [E|[word E]]; rewrite E in Hrest.
    + eauto.
    + exists (word :: rest). rewrite Hrest, <- app_assoc. reflexivity.
  - rewrite (run_done _ _ Hge) in Hrun. injection Hrun as <-.
    exists []. now rewrite app_nil_r.
Qed.

(** X9: the result only grows: the words collected at any point of the
    scan are, unchanged and in the same order, the first words of what
    [split] returns. *)
Theorem result_only_grows string entered l r
    (Htop : top_of_loop string entered l)
    (Hr : split string = Returns r) :
  exists rest, r = result l ++ rest.
Proof.
  unfold split in Hr. fold (run string initial) in Hr.
  rewrite (run_from_top _ _ _ Htop) in Hr.
  destruct (run string l) as [l1| |] eqn:Hrun; cbn [bind] in Hr;
    try discriminate.
  destruct (run_grows _ _ _ _ Htop Hrun) as [rest Hrest].
  unfold finish in Hr.
  destruct (state l1); try discriminate;
    (destruct (begin_word l1) as [b|];
     [destruct (_make_word string b (i l1)) as [word| |]; cbn [bind] in Hr;
      try discriminate; injection Hr as <-;
      exists (rest ++ [word]); rewrite Hrest, <- app_assoc; reflexivity
     |injection Hr as <-; eauto]).
Qed.

Lemma result_only_grows_witness :
  let s := lit "a b" in
  let l := Locals SPACE 1 None [lit "a"] in
  top_of_loop s 1 l /\
  split s = Returns [lit "a"; lit "b"] /\
  exists rest, [lit "a"; lit "b"] = result l ++ rest.
Proof.
  cbv zeta.
  assert (H1 : top_of_loop (lit "a b") 0 (Locals WORD 0 None [])).
  { apply (top_next (lit "a b") 0 initial (Locals WORD 0 None []) (top_first _)).
    - cbn. lia.
    - reflexivity. }
  assert (H2 : top_of_loop (lit "a b") 0 (Locals WORD 1 (Some 0) [])).
  { apply (top_next (lit "a b") 0 _ (Locals WORD 1 (Some 0) []) H1).
    - cbn. lia.
    - reflexivity. }
  assert (H3 : top_of_loop (lit "a b") 1 (Locals SPACE 1 None [lit "a"])).
  { apply (top_next (lit "a b") 0 _ (Locals SPACE 1 None [lit "a"]) H2).
    - cbn. lia.
    - reflexivity. }
  split; [exact H3|]. split; [reflexivity|].
  apply (result_only_grows (lit "a b") 1 (Locals SPACE 1 None [lit "a"])
                           [lit "a"; lit "b"] H3).
  reflexivity.
Defined.

(** X10: [split] returns no word exactly on the inputs made of white space
    only, the empty input among them. *)
Theorem no_words_iff_blank (string : str) :
  split string = Returns [] <-> whitespace string.
Proof.
  split; [|apply split_spaces].
  intros H. destruct (split_returns_inv _ _ H) as (entered & l & Htop & Hend & Hl).
  assert (Hinv : result l = [] -> state l = SPACE ->
                 whitespace (firstn (i l) string)).
  { apply (top_of_loop_keeps string
             (fun l => result l = [] -> state l = SPACE ->
                       whitespace (firstn (i l) string)))
      with (entered := entered); [constructor | | exact Htop].
    clear. intros l l' IH Ht. destruct Ht; cbn [state i result] in *;
      try discriminate;
      try (intros E; apply app_eq_nil in E; destruct E; discriminate).
    intros Hres _. rewrite (firstn_next _ _ _ H).
    apply Forall_app. split; [now apply IH|]. now repeat constructor. }
  destruct Hl as [(Hst & _ & Hr)|(b & word & _ & _ & _ & _ & Hr)].
  - rewrite Hend, firstn_all in Hinv. now apply Hinv.
  - symmetry in Hr. apply app_eq_nil in Hr. destruct Hr; discriminate.
Qed.

Lemma no_words_iff_blank_witness :
  whitespace (lit "   ") /\ split (lit "   ") = Returns [].
Proof.
  assert (H : whitespace (lit "   ")) by (repeat constructor).
  split; [exact H|]. apply (proj2 (no_words_iff_blank (lit "   ")) H).
Defined.

(** X11: [InvalidAcceptError] means a quote in the middle of a bare word:
    whenever [split] raises it, the character reported is a quote, the
    index reported is where it stands in the input, and the character just
    before it belongs to the word and is no backslash. *)
Theorem invalid_accept_is_quote_in_word (string : str) m
    (H : split string = Raises (InvalidAcceptError m)) :
  exists j p,
    m = ExpectedWordChar quote (S j) /\
    nth_error string (S j) = Some quote /\
    nth_error string j = Some p /\
    p <> backslash /\ isspace p = false.
Proof.
  destruct (split_raises_inv _ _ H)
    as [(entered & l & Htop & Hlt & Hf)
       |(entered & l & Htop & Hend & [[_ E]|(b & _ & _ & _ & Hw)])].
  - assert (Hprev : forall b, state l = WORD -> begin_word l = Some b ->
                      exists j p, i l = S j /\ nth_error string j = Some p /\
                                  isspace p = false).
    { apply (top_of_loop_keeps string
               (fun l => forall b, state l = WORD -> begin_word l = Some b ->
                  exists j p, i l = S j /\ nth_error string j = Some p /\
                              isspace p = false))
        with (entered := entered); [discriminate | | exact Htop].
      clear. intros l l' IH Ht. destruct Ht; cbn [state i begin_word] in *;
        try discriminate;
        intros _ _ _; exists k, c; repeat split; auto; lia. }
    inversion Hf; subst; try discriminate;
      try match goal with
          | Hm : _make_word _ _ _ = Raises _ |- _ =>
            apply make_word_raises in Hm; contradiction
          end.
    destruct (Hprev b eq_refl eq_refl) as (j & p & Hj & Hp & Hs).
    cbn [i] in Hj. subst k. exists j, p. repeat split; auto.
    intros ->.
    match goal with
    | Hno : prev_bs _ _ = false |- _ =>
      cbn [prev_bs] in Hno; rewrite Hp in Hno; discriminate
    end.
  - discriminate.
  - apply make_word_raises in Hw. contradiction.
Qed.

Lemma invalid_accept_is_quote_in_word_witness :
  let s := lit "qu" ++ [quote] ++ lit "ck" in
  split s = Raises (InvalidAcceptError (ExpectedWordChar quote 2)) /\
  exists j p,
    ExpectedWordChar quote 2 = ExpectedWordChar quote (S j) /\
    nth_error s (S j) = Some quote /\
    nth_error s j = Some p /\
    p <> backslash /\ isspace p = false.
Proof.
  cbv zeta. split; [reflexivity|].
  apply (invalid_accept_is_quote_in_word (lit "qu" ++ [quote] ++ lit "ck")).
  reflexivity.
Defined.

(** ** Sizes and characters of the result *)

Lemma Forall_slice (P : N -> Prop) (s : str) b e :
  Forall P s -> Forall P (slice s b e).
Proof.
  intros H. unfold slice.
  rewrite <- (firstn_skipn b s) in H. apply Forall_app in H. destruct H as [_ H].
  rewrite <- (firstn_skipn (e - b) (skipn b s)) in H.
  apply Forall_app in H. now destruct H as [H _].
Qed.

Lemma make_word_le string b e word :
  _make_word string b e = Returns word -> length word <= e - b.
Proof.
  rewrite _make_word_decode. intros H. apply decode_length in H.
  unfold slice in H. rewrite length_firstn in H. lia.
Qed.

Lemma size_snoc (res : list str) word :
  length (concat (res ++ [word])) + length (res ++ [word]) =
  length (concat res) + length res + length word + 1.
Proof.
  rewrite concat_app, !length_app. cbn [concat length].
  rewrite app_nil_r. lia.
Qed.

(** X12: what [split] returns is no larger than its input: the characters
    of the words and the number of words together exceed the length of the
    input by one at most. *)
Theorem output_size (string : str) r (H : split string = Returns r) :
  length (concat r) + length r <= length string + 1.
Proof.
  destruct (split_returns_inv _ _ H) as (entered & l & Htop & Hend & Hl).
  assert (Hinv :
    match state l, begin_word l with
    | SPACE, _ =>
      length (concat (result l)) + length (result l) <= i l + 1 /\
      (length (concat (result l)) + length (result l) = i l + 1 ->
       forall c, nth_error string (i l) = Some c -> isspace c = true)
    | WORD, None => length (concat (result l)) + length (result l) <= i l
    | WORD, Some b => length (concat (result l)) + length (result l) <= b
    | QUOTES, None => length (concat (result l)) + length (result l) + 1 <= i l
    | QUOTES, Some b => length (concat (result l)) + length (result l) + 1 <= b
    end).
  { apply (top_of_loop_keeps string
      (fun l =>
         match state l, begin_word l with
         | SPACE, _ =>
           length (concat (result l)) + length (result l) <= i l + 1 /\
           (length (concat (result l)) + length (result l) = i l + 1 ->
            forall c, nth_error string (i l) = Some c -> isspace c = true)
         | WORD, None => length (concat (result l)) + length (result l) <= i l
         | WORD, Some b => length (concat (result l)) + length (result l) <= b
         | QUOTES, None =>
           length (concat (result l)) + length (result l) + 1 <= i l
         | QUOTES, Some b =>
           length (concat (result l)) + length (result l) + 1 <= b
         end))
      with (entered := entered); [cbn; split; [lia|intros; lia] | | exact Htop].
    clear. intros l l' IH Ht.
    destruct Ht; cbn [state i begin_word result] in *;
      rewrite ?size_snoc; cbn [length];
      try match goal with
          | Hm : _make_word _ _ _ = Returns _ |- _ => apply make_word_le in Hm
          end;
      try lia.
    - destruct IH as [Hle Htight].
      destruct (Nat.eq_dec (length (concat res) + length res) (k + 1)) as [E|E];
        [|lia].
      discriminate (Htight E quote H).
    - destruct IH as [Hle Htight].
      destruct (Nat.eq_dec (length (concat res) + length res) (k + 1)) as [E|E];
        [|lia].
      rewrite (Htight E c H) in H0. discriminate.
    - split; [lia|]. intros _ c' Hc'. congruence. }
  destruct Hl as [(Hst & _ & Hr)|(b & word & Hst & Hbw & Hb & Hw & Hr)].
  - rewrite Hst in Hinv. subst r. lia.
  - rewrite Hst, Hbw in Hinv. subst r. rewrite size_snoc.
    apply make_word_le in Hw. lia.
Qed.

Lemma output_size_witness :
  split (lit "a b") = Returns [lit "a"; lit "b"] /\
  length (concat [lit "a"; lit "b"]) + length [lit "a"; lit "b"]
    <= length (lit "a b") + 1.
Proof.
  split; [reflexivity|].
  apply (output_size (lit "a b") [lit "a"; lit "b"]). reflexivity.
Defined.

Lemma decode_keeps_plain raw :
  forall pos word,
    decode pos raw = Returns word -> filter plain word = filter plain raw.
Proof.
  induction raw as [raw IH] using (induction_ltof1 _ (@length N)).
  unfold ltof in IH. intros pos word.
  destruct raw as [|c rest]; [intros [= <-]; reflexivity|].
  cbn [decode]. destruct (c =? backslash)%N eqn:Ec.
  - apply N.eqb_eq in Ec. subst c.
    destruct rest as [|d rest]; [discriminate|].
    destruct (backslash =? d)%N eqn:Eb.
    + apply N.eqb_eq in Eb. subst d.
      specialize (IH rest (ltac:(cbn [length]; lia)) (pos + 1)).
      destruct (decode (pos + 1) rest) as [out| |]; cbn [bind];
        try discriminate.
      intros [= <-]. cbn. now apply IH.
    + destruct (quote =? d)%N eqn:Eq; [|discriminate].
      apply N.eqb_eq in Eq. subst d.
      specialize (IH rest (ltac:(cbn [length]; lia)) (pos + 1)).
      destruct (decode (pos + 1) rest) as [out| |]; cbn [bind];
        try discriminate.
      intros [= <-]. cbn. now apply IH.
  - specialize (IH rest (ltac:(cbn [length]; lia)) (pos + 1)).
    destruct (decode (pos + 1) rest) as [out| |]; cbn [bind];
      try discriminate.
    intros [= <-]. cbn [filter]. rewrite (IH out eq_refl). reflexivity.
Qed.

Lemma not_plain_quote : plain quote = false.
Proof. reflexivity. Qed.

Lemma not_plain_space c : isspace c = true -> plain c = false.
Proof.
  intros H. unfold plain. now rewrite H.
Qed.

(** X13: [split] keeps the ordinary characters: leaving white space, quotes
    and backslashes aside, the characters of the words returned are those
    of the input, all of them and in the same order. *)
Theorem plain_characters_kept (string : str) r (H : split string = Returns r) :
  filter plain (concat r) = filter plain string.
Proof.
  destruct (split_returns_inv _ _ H) as (entered & l & Htop & Hend & Hl).
  assert (Hinv :
    filter plain (concat (result l)) ++
    filter plain (match begin_word l with
                  | Some b => slice string b (i l)
                  | None => []
                  end) =
    filter plain (firstn (i l) string)).
  { apply (top_of_loop_keeps string
      (fun l =>
         filter plain (concat (result l)) ++
         filter plain (match begin_word l with
                       | Some b => slice string b (i l)
                       | None => []
                       end) =
         filter plain (firstn (i l) string)))
      with (entered := entered); [reflexivity | | exact Htop].
    clear. intros l l' IH Ht.
    destruct Ht; cbn [state i begin_word result] in *;
      rewrite ?concat_app; cbn [concat];
      try match goal with
          | Hm : _make_word _ _ _ = Returns _ |- _ =>
            rewrite _make_word_decode in Hm; apply decode_keeps_plain in Hm
          end;
      try match goal with
          | Hc : nth_error _ ?k = Some _ |- context [firstn (?k + 1) _] =>
            rewrite (firstn_next _ _ _ Hc)
          end;
      try match goal with
          | Hc : nth_error _ ?k = Some ?c |- context [slice _ ?b (?k + 1)] =>
            rewrite (slice_next _ b k c) by first [lia | exact Hc]
          end;
      rewrite ?slice_empty, ?filter_app, ?app_nil_r in *;
      cbn [app filter]; rewrite ?not_plain_quote, ?app_nil_r;
      try (rewrite not_plain_space by assumption; rewrite ?app_nil_r);
      try congruence.
    all: rewrite <- IH, app_assoc; reflexivity. }
  rewrite Hend, firstn_all in Hinv.
  destruct Hl as [(Hst & Hbw & Hr)|(b & word & Hst & Hbw & Hb & Hw & Hr)].
  - rewrite Hbw in Hinv. cbn [filter] in Hinv. rewrite app_nil_r in Hinv.
    now subst r.
  - rewrite Hbw in Hinv. subst r.
    rewrite _make_word_decode in Hw. apply decode_keeps_plain in Hw.
    rewrite concat_app, filter_app. cbn [concat]. rewrite app_nil_r.
    now rewrite Hw.
Qed.

Lemma plain_characters_kept_witness :
  let s := lit "a " ++ [quote] ++ lit "b c" ++ [backslash; quote; quote] in
  let r := [lit "a"; lit "b c" ++ [quote]] in
  split s = Returns r /\
  filter plain (concat r) = filter plain s.
Proof.
  cbv zeta. split; [reflexivity|].
  apply (plain_characters_kept
           (lit "a " ++ [quote] ++ lit "b c" ++ [backslash; quote; quote])
           [lit "a"; lit "b c" ++ [quote]]).
  reflexivity.
Defined.

(** ** Inputs without quotes and backslashes *)

Lemma make_word_plain string b e :
  Forall (fun c => c <> quote /\ c <> backslash) string ->
  _make_word string b e = Returns (slice string b e).
Proof.
  intros H. rewrite _make_word_decode. apply decode_plain.
  apply Forall_slice. eapply Forall_impl; [|exact H].
  intros c [_ Hc]. now apply N.eqb_neq.
Qed.

Lemma no_quote_at (string : str) k :
  Forall (fun c => c <> quote /\ c <> backslash) string ->
  nth_error string k <> Some quote.
Proof.
  intros H Hk. apply nth_error_In in Hk.
  rewrite Forall_forall in H. now destruct (H _ Hk).
Qed.

Lemma plain_scan_inv string entered l :
  Forall (fun c => c <> quote /\ c <> backslash) string ->
  top_of_loop string entered l ->
  state l <> QUOTES /\
  concat (result l) ++
    match begin_word l with
    | Some b => slice string b (i l)
    | None => []
    end = filter (fun c => negb (isspace c)) (firstn (i l) string) /\
  Forall (fun w => w <> [] /\ Forall (fun c => isspace c = false) w)
         (result l) /\
  (forall b, begin_word l = Some b ->
             Forall (fun c => isspace c = false) (slice string b (i l))).
Proof.
  intros Hplain Htop. revert entered l Htop.
  apply (top_of_loop_keeps string
    (fun l =>
       state l <> QUOTES /\
       concat (result l) ++
         match begin_word l with
         | Some b => slice string b (i l)
         | None => []
         end = filter (fun c => negb (isspace c)) (firstn (i l) string) /\
       Forall (fun w => w <> [] /\ Forall (fun c => isspace c = false) w)
              (result l) /\
       (forall b, begin_word l = Some b ->
                  Forall (fun c => isspace c = false) (slice string b (i l))))).
  { split; [discriminate|]. split; [reflexivity|].
    split; [constructor | intros b Hb; discriminate Hb]. }
  intros l l' (Hst & Hcat & Hres & Hpend) Ht.
  destruct Ht as [k res Hc|k c res Hc Hs Hq|k c res Hc Hs|k c res Hc Hs Hq
                 |k b c word res Hc Hs Hb Hw|k b c res Hc Hs Hb Hq
                 |k res Hc Hn|k c res Hc Hq|k b word res Hc Hp Hb Hw Hn
                 |k b c res Hc Hb Hq];
    cbn [state i begin_word result] in *;
    try (exfalso; now apply Hst);
    try (exfalso; now apply (no_quote_at string k Hplain)).
  - repeat split; auto; discriminate.
  - rewrite (firstn_next _ _ _ Hc), filter_app. cbn [filter].
    rewrite Hs. cbn [negb]. rewrite !app_nil_r in *.
    repeat split; auto; discriminate.
  - rewrite (firstn_next _ _ _ Hc), filter_app. cbn [filter].
    rewrite Hs. cbn [negb].
    rewrite (slice_next _ k k c (le_n _) Hc), slice_empty. cbn [app].
    rewrite app_nil_r in Hcat. rewrite Hcat.
    repeat split; auto; try discriminate.
    intros b' [= <-]. rewrite (slice_next _ k k c (le_n _) Hc), slice_empty.
    now repeat constructor.
  - rewrite (make_word_plain _ _ _ Hplain) in Hw. injection Hw as <-.
    rewrite concat_app. cbn [concat]. rewrite !app_nil_r.
    repeat split; auto; try discriminate.
    apply Forall_app. split; [exact Hres|]. constructor; [|constructor].
    split; [|now apply Hpend].
    intros E. apply (f_equal (@length N)) in E.
    rewrite slice_length in E; [cbn in E; lia|].
    assert (k < length string) by (apply nth_error_Some; congruence). lia.
  - rewrite (firstn_next _ _ _ Hc), filter_app. cbn [filter].
    rewrite Hs. cbn [negb].
    rewrite (slice_next _ b k c (Nat.lt_le_incl _ _ Hb) Hc), app_assoc, Hcat.
    repeat split; auto; try discriminate.
    intros b' [= <-]. rewrite (slice_next _ b k c (Nat.lt_le_incl _ _ Hb) Hc).
    apply Forall_app. split; [now apply Hpend | now repeat constructor].
Qed.

(** X14: on an input without quotes and backslashes [split] never fails,
    and it returns the runs of characters between white space: words that
    are not empty and hold no white space, and that put end to end are the
    input with its white space taken out. *)
Theorem plain_input_splits (string : str)
    (Hplain : Forall (fun c => c <> quote /\ c <> backslash) string) :
  exists r,
    split string = Returns r /\
    concat r = filter (fun c => negb (isspace c)) string /\
    Forall (fun w => w <> [] /\ Forall (fun c => isspace c = false) w) r.
Proof.
  destruct (split_cases string) as [[r Hr]|[e [He _]]].
  - exists r. split; [exact Hr|].
    destruct (split_returns_inv _ _ Hr) as (entered & l & Htop & Hend & Hl).
    destruct (plain_scan_inv _ _ _ Hplain Htop) as (Hst & Hcat & Hres & Hpend).
    rewrite Hend, firstn_all in Hcat.
    destruct Hl as [(_ & Hbw & ->)|(b & word & _ & Hbw & Hb & Hw & ->)];
      rewrite Hbw in Hcat.
    + rewrite app_nil_r in Hcat. auto.
    + rewrite (make_word_plain _ _ _ Hplain) in Hw. injection Hw as <-.
      rewrite concat_app. cbn [concat]. rewrite app_nil_r.
      split; [exact Hcat|].
      apply Forall_app. split; [exact Hres|]. constructor; [|constructor].
      split.
      * intros E. apply (f_equal (@length N)) in E.
        rewrite slice_length in E by lia. cbn in E. lia.
      * specialize (Hpend b Hbw). now rewrite Hend in Hpend.
  - exfalso.
    destruct (split_raises_inv _ _ He)
      as [(entered & l & Htop & Hlt & Hf)
         |(entered & l & Htop & Hend & [[Hq _]|(b & _ & _ & _ & Hw)])].
    + inversion Hf; subst;
        try (now apply (no_quote_at string k Hplain));
        match goal with
        | Hm : _make_word _ _ _ = Raises _ |- _ =>
          rewrite (make_word_plain _ _ _ Hplain) in Hm; discriminate
        end.
    + now destruct (plain_scan_inv _ _ _ Hplain Htop) as (Hst & _).
    + rewrite (make_word_plain _ _ _ Hplain) in Hw. discriminate.
Qed.

Lemma plain_input_splits_witness :
  Forall (fun c => c <> quote /\ c <> backslash) (lit " ab  c ") /\
  exists r,
    split (lit " ab  c ") = Returns r /\
    concat r = filter (fun c => negb (isspace c)) (lit " ab  c ") /\
    Forall (fun w => w <> [] /\ Forall (fun c => isspace c = false) w) r.
Proof.
  assert (H : Forall (fun c => c <> quote /\ c <> backslash) (lit " ab  c "))
    by (repeat constructor; discriminate).
  split; [exact H|].
  apply (plain_input_splits (lit " ab  c ") H).
Defined.

(** ** Quotes that are never closed *)

Lemma split_open_quote (t : str) :
  Forall (fun c => (c =? quote)%N = false) t ->
  split (quote :: t) = Raises (QuoteError QuoteNotClosed).
Proof.
  intros Ht. set (s := quote :: t).
  unfold split. fold (run s initial).
  rewrite run_step by (cbn; lia).
  rewrite (body_eq s initial quote eq_refl). unfold body_of.
  cbn [state i begin_word result initial]. rewrite N.eqb_refl. cbn [bind].
  destruct (quotes_to_the_end s (Locals QUOTES (0 + 1) None []) eq_refl)
    as (l1 & -> & Hst).
  - cbn [i]. intros k c Hk Hc. destruct k as [|k]; [lia|].
    cbn in Hc. apply nth_error_In in Hc.
    rewrite Forall_forall in Ht. now apply Ht.
  - cbn [bind]. unfold finish. now rewrite Hst.
Qed.

(** X15: a quote that opens a token and is followed by no other quote is
    never accepted: at the start of the input, or after white space that
    follows a part that splits, [split] raises [QuoteError] for a quote
    that was not closed, whatever else follows. *)
Theorem open_quote_unclosed (t : str)
    (Ht : Forall (fun c => (c =? quote)%N = false) t) :
  split (quote :: t) = Raises (QuoteError QuoteNotClosed) /\
  forall (s1 : str) r1 w,
    split s1 = Returns r1 -> isspace w = true ->
    split (s1 ++ w :: quote :: t) = Raises (QuoteError QuoteNotClosed).
Proof.
  split; [now apply split_open_quote|].
  intros s1 r1 w H1 Hw.
  rewrite (split_words s1 (quote :: t) w r1 Hw H1), (split_open_quote t Ht).
  reflexivity.
Qed.

Lemma open_quote_unclosed_witness :
  Forall (fun c => (c =? quote)%N = false) (lit "brown fox") /\
  split (quote :: lit "brown fox") = Raises (QuoteError QuoteNotClosed).
Proof.
  assert (H : Forall (fun c => (c =? quote)%N = false) (lit "brown fox"))
    by (repeat constructor).
  split; [exact H|]. apply (open_quote_unclosed (lit "brown fox") H).
Defined.

(** ** The two accept functions *)

(** X16: at an index of the string [_accept_space_char] accepts exactly the
    white space and [_accept_word_char] exactly the other characters that
    are no quote or follow a backslash, so that no character is accepted by
    both and the ones neither accepts are the quotes that follow no
    backslash; both accept by returning the next index, refuse with
    [InvalidAcceptError] naming the character and the index, and raise
    [IndexError] past the end of the string. *)
Theorem accept_functions_partition (string : str) k :
  match nth_error string k with
  | Some c =>
    _accept_space_char string k =
      (if isspace c then Returns (k + 1)
       else Raises (InvalidAcceptError (ExpectedSpaceChar c k))) /\
    _accept_word_char string k =
      (if isspace c || (c =? quote)%N && negb (prev_bs string k)
       then Raises (InvalidAcceptError (ExpectedWordChar c k))
       else Returns (k + 1)) /\
    ~ (_accept_space_char string k = Returns (k + 1) /\
       _accept_word_char string k = Returns (k + 1)) /\
    ((_accept_space_char string k <> Returns (k + 1) /\
      _accept_word_char string k <> Returns (k + 1)) <->
     c = quote /\ prev_bs string k = false)
  | None =>
    _accept_space_char string k = Raises IndexError /\
    _accept_word_char string k = Raises IndexError
  end.
Proof.
  destruct (nth_error string k) as [c|] eqn:Hc.
  - assert (Hlt : k < length string)
      by (apply nth_error_Some; rewrite Hc; discriminate).
    assert (Hs : _accept_space_char string k =
                 if isspace c then Returns (k + 1)
                 else Raises (InvalidAcceptError (ExpectedSpaceChar c k))).
    { unfold _accept_space_char. rewrite (index_at _ _ _ Hc). cbn [bind].
      destruct (isspace c); reflexivity. }
    assert (Hw : _accept_word_char string k =
                 if isspace c || (c =? quote)%N && negb (prev_bs string k)
                 then Raises (InvalidAcceptError (ExpectedWordChar c k))
                 else Returns (k + 1)).
    { unfold _accept_word_char.
      rewrite (index_at _ _ _ Hc), (preceded_by_backslash_eq _ _ Hlt).
      cbn [bind]. destruct (isspace c); cbn [bind orb]; [reflexivity|].
      destruct (c =? quote)%N; cbn [bind andb]; [|reflexivity].
      destruct (prev_bs string k); reflexivity. }
    rewrite Hs, Hw. split; [reflexivity|]. split; [reflexivity|].
    destruct (isspace c) eqn:Es; cbn [orb].
    + split; [intros [_ H]; discriminate|].
      split; [intros [H _]; now elim H|].
      intros [-> _]. discriminate.
    + destruct (c =? quote)%N eqn:Eq; cbn [andb].
      * apply N.eqb_eq in Eq. subst c.
        destruct (prev_bs string k); cbn [negb].
        -- split; [intros [H _]; discriminate|].
           split; [intros [_ H]; now elim H | intros [_ H]; discriminate].
        -- split; [intros [H _]; discriminate|].
           split; [auto|]. intros _. split; discriminate.
      * apply N.eqb_neq in Eq.
        split; [intros [H _]; discriminate|].
        split; [intros [_ H]; now elim H | intros [H _]; contradiction].
  - unfold _accept_space_char, _accept_word_char, index. rewrite Hc.
    split; reflexivity.
Qed.

(** ** Where an escape error points *)

Lemma nth_error_slice (s : str) b e j x :
  nth_error (slice s b e) j = Some x ->
  nth_error s (b + j) = Some x /\ b + j < e.
Proof.
  unfold slice. rewrite nth_error_firstn, nth_error_skipn.
  destruct (Nat.ltb_spec j (e - b)) as [Hj|Hj]; [|discriminate].
  intros Hx. split; [exact Hx | lia].
Qed.

Lemma make_word_escape_location string b e ex :
  _make_word string b e = Raises ex ->
  (exists c k j,
      ex = EscapeError (CannotEscape c k) /\
      k <= S j /\ b <= j /\ S j < e /\
      S j = k + collapsed (slice string b e) /\
      nth_error string j = Some backslash /\
      nth_error string (S j) = Some c /\
      c <> backslash /\ c <> quote) \/
  (exists k k',
      ex = EscapeError (InvalidBackslash k) /\
      k <= k' /\ b <= k' /\ k' < e /\
      k' = k + collapsed (slice string b e) /\
      nth_error string k' = Some backslash).
Proof.
  rewrite _make_word_decode. intros Hd.
  pose proof (decode_drift (slice string b e) b b) as Hdrift.
  pose proof (unescape_position (slice string b e) b) as Hpos.
  pose proof (decode_raises_bounds _ _ _ Hd) as Hbound.
  rewrite Hd in Hdrift.
  destruct ex as [m|m|m|]; try contradiction.
  destruct m as [| | | |c k|k]; try contradiction.
  - destruct (unescape b (slice string b e)) as [w|[| | |c' k'|k']];
      try contradiction.
    destruct Hdrift as [<- Hk]. destruct Hpos as (Hlt & Hc & Hbs).
    destruct Hbound as (Hcb & Hcq & _).
    apply nth_error_slice in Hc, Hbs. destruct Hc as [Hc He], Hbs as [Hbs _].
    left. exists c, k, (k' - 1).
    replace (S (k' - 1)) with k' by lia.
    replace (b + (k' - b)) with k' in * by lia.
    replace (b + (k' - b - 1)) with (k' - 1) in Hbs by lia.
    apply N.eqb_neq in Hcb, Hcq.
    repeat split; auto; lia.
  - destruct (unescape b (slice string b e)) as [w|[| | |c' k'|k']];
      try contradiction.
    destruct Hpos as (Hle & Hbs & Hlen).
    pose proof (nth_error_slice _ _ _ _ _ Hbs) as [Hat He].
    replace (b + (k' - b)) with k' in * by lia.
    right. exists k, k'. repeat split; auto; lia.
Qed.

(** X17: what an [EscapeError] of [split] points at: the character it says
    cannot be escaped is neither a backslash nor a quote and stands in the
    input right after a backslash, and the backslash it calls invalid
    stands in the input too; the index in the message is within the input
    and never beyond the place of that character. *)
Theorem escape_error_location (string : str) m
    (H : split string = Raises (EscapeError m)) :
  (exists c k j,
      m = CannotEscape c k /\
      k <= S j /\ S j < length string /\
      nth_error string j = Some backslash /\
      nth_error string (S j) = Some c /\
      c <> backslash /\ c <> quote) \/
  (exists k k',
      m = InvalidBackslash k /\
      k <= k' /\ k' < length string /\
      nth_error string k' = Some backslash).
Proof.
  assert (Hmw : forall b e,
             e <= length string ->
             _make_word string b e = Raises (EscapeError m) ->
             (exists c k j,
                 m = CannotEscape c k /\
                 k <= S j /\ S j < length string /\
                 nth_error string j = Some backslash /\
                 nth_error string (S j) = Some c /\
                 c <> backslash /\ c <> quote) \/
             (exists k k',
                 m = InvalidBackslash k /\
                 k <= k' /\ k' < length string /\
                 nth_error string k' = Some backslash)).
  { intros b e He Hw.
    destruct (make_word_escape_location _ _ _ _ Hw)
      as [(c & k & j & E & Hk & Hb & Hj & _ & Hbs & Hc & Hcb & Hcq)
         |(k & k' & E & Hk & Hb & Hk' & _ & Hbs)];
      injection E as ->.
    - left. exists c, k, j. repeat split; auto; lia.
    - right. exists k, k'. repeat split; auto; lia. }
  destruct (split_raises_inv _ _ H)
    as [(entered & l & Htop & Hlt & Hf)
       |(entered & l & Htop & Hend & [[_ E]|(b & _ & _ & _ & Hw)])].
  - inversion Hf; subst; cbn [i] in Hlt;
      match goal with
      | Hm : _make_word _ _ _ = Raises _ |- _ =>
        apply (Hmw _ _ (Nat.lt_le_incl _ _ Hlt) Hm)
      end.
  - discriminate.
  - now apply (Hmw b (length string)).
Qed.

Lemma escape_error_location_witness :
  let s := lit "a" ++ [backslash; backslash; backslash] ++ lit "q" in
  split s = Raises (EscapeError (CannotEscape 113%N 3)) /\
  ((exists c k j,
       CannotEscape 113%N 3 = CannotEscape c k /\
       k <= S j /\ S j < length s /\
       nth_error s j = Some backslash /\
       nth_error s (S j) = Some c /\
       c <> backslash /\ c <> quote) \/
   (exists k k',
       CannotEscape 113%N 3 = InvalidBackslash k /\
       k <= k' /\ k' < length s /\
       nth_error s k' = Some backslash)).
Proof.
  cbv zeta. split; [reflexivity|].
  apply (escape_error_location
           (lit "a" ++ [backslash; backslash; backslash] ++ lit "q")).
  reflexivity.
Defined.

(** ** The test table *)

Lemma words_eqb_eq a b : words_eqb a b = true <-> a = b.
Proof.
  assert (Hstr : forall x y, str_eqb x y = true <-> x = y).
  { induction x as [|c x IH]; destruct y as [|d y]; cbn;
      try (split; [discriminate|discriminate]); [tauto|].
    rewrite andb_true_iff, N.eqb_eq, IH.
    split; [intros [-> ->]; reflexivity | intros [= -> ->]; auto]. }
  revert b. induction a as [|x a IH]; destruct b as [|y b]; cbn;
    try (split; [discriminate|discriminate]); [tauto|].
  rewrite andb_true_iff, Hstr, IH.
  split; [intros [-> ->]; reflexivity | intros [= -> ->]; auto].
Qed.

(** X18: every case of the test table passes: on each of its twenty-two
    inputs [split] returns the words the table expects, or raises an
    exception of the class the table expects. *)
Theorem test_table_passes :
  length tests = 22 /\
  Forall (fun printed => snd printed = PASSED) _tests /\
  forall name val,
    In (name, val) tests ->
    match test_expect val with
    | Output output => split (test_input val) = Returns output
    | Except cls =>
      exists err, split (test_input val) = Raises err /\
                  caught_by cls err = true
    end.
Proof.
  split; [reflexivity|].
  assert (Hall : Forall (fun printed => snd printed = PASSED) _tests).
  { vm_compute. repeat constructor. }
  split; [exact Hall|].
  intros name val Hin.
  assert (Hrun : run_test val = PASSED).
  { unfold _tests in Hall. rewrite Forall_map, Forall_forall in Hall.
    exact (Hall _ Hin). }
  unfold run_test in Hrun. destruct (test_expect val) as [output|cls].
  - destruct (split (test_input val)) as [r| |]; try discriminate.
    destruct (words_eqb r output) eqn:E; [|discriminate].
    apply words_eqb_eq in E. now subst.
  - destruct (split (test_input val)) as [|err|]; try discriminate.
    destruct (caught_by cls err) eqn:E; [|discriminate].
    now exists err.
Qed.

Lemma test_table_passes_witness :
  let val := TestCase (lit "the quick brown fox " ++ [quote])
                      (Except QuoteErrorClass) in
  In ("quote at end of string error"%string, val) tests /\
  exists err, split (test_input val) = Raises err /\
              caught_by QuoteErrorClass err = true.
Proof.
  cbv zeta.
  assert (H : In ("quote at end of string error"%string,
                  TestCase (lit "the quick brown fox " ++ [quote])
                           (Except QuoteErrorClass)) tests).
  { unfold tests. do 19 right. left. reflexivity. }
  split; [exact H|].
  apply (proj2 (proj2 test_table_passes) _ _ H).
Defined.

(** ** A quote inside a bare word *)

Lemma word_pass_plain string b n :
  forall l,
    state l = WORD ->
    begin_word l = Some b ->
    (forall k, i l <= k < i l + n ->
               exists c, nth_error string k = Some c /\ plain c = true) ->
    run string l = run string (Locals WORD (i l + n) (Some b) (result l)).
Proof.
  induction n as [|n IH]; intros l Hst Hbw Hrest.
  - destruct l as [st k bw res]. cbn [state i begin_word result] in *.
    subst. now rewrite Nat.add_0_r.
  - destruct (Hrest (i l) (ltac:(lia))) as (c & Hc & Hp).
    destruct (plain_inv c Hp) as (Hs & Hq & _).
    assert (Hlt : i l < length string)
      by (apply nth_error_Some; rewrite Hc; discriminate).
    rewrite (run_step _ _ Hlt), (body_eq _ _ _ Hc).
    unfold body_of. rewrite Hst, Hbw, Hs, Hq. cbn [andb bind].
    rewrite (IH (Locals WORD (i l + 1) (Some b) (result l)));
      cbn [state i begin_word result]; auto.
    + do 2 f_equal. lia.
    + intros k Hk. apply Hrest. lia.
Qed.

Lemma split_quote_in_word (word t : str) :
  word <> [] ->
  Forall (fun c => plain c = true) word ->
  split (word ++ quote :: t) =
  Raises (InvalidAcceptError (ExpectedWordChar quote (length word))).
Proof.
  intros Hne Hw. set (s := word ++ quote :: t).
  assert (Hat : forall k, k < length word ->
                  exists c, nth_error s k = Some c /\ plain c = true).
  { intros k Hk. destruct (char_at word k Hk) as [c Hc].
    exists c. split.
    - unfold s. now rewrite nth_error_app1.
    - rewrite Forall_forall in Hw. apply Hw. eapply nth_error_In; eauto. }
  assert (Hq : nth_error s (length word) = Some quote).
  { unfold s. rewrite nth_error_app2, Nat.sub_diag by lia. reflexivity. }
  assert (Hlen : length s = length word + 1 + length t).
  { unfold s. rewrite length_app. cbn [length]. lia. }
  assert (Hpos : 0 < length word) by (destruct word; [contradiction|cbn; lia]).
  destruct (Hat 0 Hpos) as (c0 & Hc0 & Hp0).
  destruct (plain_inv c0 Hp0) as (Hs0 & Hq0 & _).
  unfold split. fold (run s initial).
  rewrite run_step by (cbn [i initial]; lia).
  rewrite (body_eq s initial c0 Hc0). unfold body_of.
  cbn [state i begin_word result initial]. rewrite Hq0, Hs0. cbn [negb bind].
  rewrite run_step by (cbn [i]; lia).
  rewrite (body_eq s (Locals WORD 0 None []) c0 Hc0). unfold body_of.
  cbn [state i begin_word result]. rewrite Hq0, Hs0. cbn [orb andb bind].
  rewrite (word_pass_plain s 0 (length word - 1));
    cbn [state i begin_word result]; auto.
  2:{ intros k Hk. apply Hat. lia. }
  replace (0 + 1 + (length word - 1)) with (length word) by lia.
  rewrite run_step by (cbn [i]; lia).
  rewrite (body_eq _ _ quote) by exact Hq.
  unfold body_of. cbn [state i begin_word result].
  assert (Hprev : prev_bs s (length word) = false).
  { destruct (length word) as [|j] eqn:E; [reflexivity|].
    cbn [prev_bs]. destruct (Hat j (ltac:(lia))) as (p & Hp & Hpp).
    rewrite Hp. now destruct (plain_inv p Hpp) as (_ & _ & ?). }
  rewrite Hprev. reflexivity.
Qed.

(** X19: a quote right after the ordinary characters of a bare word is
    always refused: [split] raises [InvalidAcceptError] with the quote and
    the index at which it stands in the input, at the start of the input
    as after white space that follows a part that splits, whatever comes
    after the quote. *)
Theorem quote_in_word_rejected (word t : str)
    (Hne : word <> [])
    (Hword : Forall (fun c => plain c = true) word) :
  split (word ++ quote :: t) =
    Raises (InvalidAcceptError (ExpectedWordChar quote (length word))) /\
  forall (s1 : str) r1 w,
    split s1 = Returns r1 -> isspace w = true ->
    split (s1 ++ w :: word ++ quote :: t) =
    Raises (InvalidAcceptError
              (ExpectedWordChar quote (length s1 + 1 + length word))) /\
    nth_error (s1 ++ w :: word ++ quote :: t) (length s1 + 1 + length word) =
      Some quote.
Proof.
  split; [now apply split_quote_in_word|].
  intros s1 r1 w H1 Hw. split.
  - rewrite (split_words s1 (word ++ quote :: t) w r1 Hw H1),
      (split_quote_in_word word t Hne Hword).
    reflexivity.
  - rewrite nth_error_app2 by lia.
    replace (length s1 + 1 + length word - length s1) with (S (length word))
      by lia.
    cbn [nth_error]. rewrite nth_error_app2, Nat.sub_diag by lia.
    reflexivity.
Qed.

Lemma quote_in_word_rejected_witness :
  lit "qu" <> [] /\
  Forall (fun c => plain c = true) (lit "qu") /\
  split (lit "qu" ++ quote :: lit "ck") =
    Raises (InvalidAcceptError (ExpectedWordChar quote (length (lit "qu")))).
Proof.
  assert (H1 : lit "qu" <> []) by discriminate.
  assert (H2 : Forall (fun c => plain c = true) (lit "qu"))
    by (repeat constructor).
  split; [exact H1|]. split; [exact H2|].
  apply (quote_in_word_rejected (lit "qu") (lit "ck") H1 H2).
Defined.

(** ** Splitting twice *)

Lemma join_plain_words words :
  Forall (fun w => w <> [] /\ Forall (fun c => plain c = true) w) words ->
  split (join [blank] words) = Returns words.
Proof.
  induction 1 as [|w rest [Hne Hw] Hrest IH]; [reflexivity|].
  destruct rest as [|w' rest'].
  - cbn [join]. now apply split_plain_word.
  - change (join [blank] (w :: w' :: rest'))
      with (w ++ blank :: join [blank] (w' :: rest')).
    rewrite (split_words w _ blank [w] eq_refl (split_plain_word w Hne Hw)).
    rewrite IH. reflexivity.
Qed.

(** X20: on an input without quotes and backslashes, the words [split]
    returns joined with single spaces split into the same words again:
    joining and splitting brings such an input to a form that splitting no
    longer changes. *)
Theorem split_join_split (string : str) r
    (Hplain : Forall (fun c => c <> quote /\ c <> backslash) string)
    (Hr : split string = Returns r) :
  split (join [blank] r) = Returns r.
Proof.
  destruct (split_returns_inv _ _ Hr) as (entered & l & Htop & Hend & Hl).
  destruct (plain_scan_inv _ _ _ Hplain Htop) as (Hst & Hcat & Hres & Hpend).
  rewrite Hend, firstn_all in Hcat.
  assert (Hgood : concat r = filter (fun c => negb (isspace c)) string /\
                  Forall (fun w => w <> [] /\
                                   Forall (fun c => isspace c = false) w) r).
  { destruct Hl as [(_ & Hbw & ->)|(b & word & _ & Hbw & Hb & Hw & ->)];
      rewrite Hbw in Hcat.
    - rewrite app_nil_r in Hcat. auto.
    - rewrite (make_word_plain _ _ _ Hplain) in Hw. injection Hw as <-.
      rewrite concat_app. cbn [concat]. rewrite app_nil_r.
      split; [exact Hcat|].
      apply Forall_app. split; [exact Hres|]. constructor; [|constructor].
      split.
      + intros E. apply (f_equal (@length N)) in E.
        rewrite slice_length in E by lia. cbn in E. lia.
      + specialize (Hpend b Hbw). now rewrite Hend in Hpend. }
  destruct Hgood as [Hconcat Hwords].
  apply join_plain_words.
  rewrite Forall_forall in *. intros w Hin.
  destruct (Hwords w Hin) as [Hne Hns]. split; [exact Hne|].
  rewrite Forall_forall in *. intros c Hc.
  assert (Hs : In c string).
  { assert (Hcc : In c (concat r)) by (apply in_concat; eauto).
    rewrite Hconcat in Hcc. now apply filter_In in Hcc. }
  destruct (Hplain c Hs) as [Hq Hb].
  unfold plain. rewrite (Hns c Hc).
  apply N.eqb_neq in Hq, Hb. now rewrite Hq, Hb.
Qed.

Lemma split_join_split_witness :
  Forall (fun c => c <> quote /\ c <> backslash) (lit "  a   b ") /\
  split (lit "  a   b ") = Returns [lit "a"; lit "b"] /\
  split (join [blank] [lit "a"; lit "b"]) = Returns [lit "a"; lit "b"].
Proof.
  assert (H : Forall (fun c => c <> quote /\ c <> backslash) (lit "  a   b "))
    by (repeat constructor; discriminate).
  split; [exact H|]. split; [reflexivity|].
  apply (split_join_split (lit "  a   b ") [lit "a"; lit "b"] H).
  reflexivity.
Defined.
